(** * Balanced POD engine ([bpod.py]): a shallow embedding and its properties

    The Python class [BPOD] drives four collaborators that live outside
    [bpod.py]: the inner-product matrix builder and the snapshot
    linear-combination builder of the base class [ModalDecomp], the
    factorisation routine [util.svd], and the MPI facade [self.mpi].
    The embedding keeps the control flow of every method of [bpod.py]:

    - an engine instance is a record of its attributes, [None] being the
      [None] of [option];
    - a method is a computation in a state-and-exception monad over the
      instance and the trace of collaborator calls; an exception leaves the
      attributes assigned so far in place, as in Python;
    - a broadcast is a communication node of the computation, so that a world
      of workers can be run in lock step.  *)

From Stdlib Require Import String List ZArith Bool Arith Lia.
Import ListNotations.

Set Implicit Arguments.

(** ** Python values used by the engine *)

Definition Path := string.

(** Exceptions that the methods of [bpod.py] can raise.  [UndefinedError] is
    [util.UndefinedError]; the module only does [import util], so the
    unqualified name [UndefinedError] is unbound and evaluating it raises
    [NameError].  [ValueError] is what numpy raises on a shape it refuses and
    [TypeError] what calling [None] raises. *)
Inductive exn : Type :=
| UndefinedError (msg : string)
| NameError (name : string)
| ValueError (msg : string)
| TypeError (msg : string).

Inductive res (A : Type) : Type :=
| Ok (a : A)
| Err (e : exn).
Arguments Ok {A} a.
Arguments Err {A} e.

Definition is_UndefinedError (e : exn) : bool :=
  match e with UndefinedError _ => true | _ => false end.

Definition res_bind {A B} (r : res A) (f : A -> res B) : res B :=
  match r with Ok a => f a | Err e => Err e end.

(** ** Scalars and numpy arrays *)

(** Entries of the matrices are floating-point (or complex) numbers; the
    engine only adds and multiplies them and raises them to the power -1/2. *)
Class ScalarOps (S : Type) : Type := {
  szero : S;
  sadd : S -> S -> S;
  smul : S -> S -> S;
  pow_neg_half : S -> S
}.

Module Numpy.
Section Arrays.
Context {S : Type} {ops : ScalarOps S}.

(** An array is its shape and its entries in row-major order.  A numpy
    matrix is identified with the 2-d array of its entries. *)
Record ndarray : Type := mk_ndarray { shape : list nat; data : list S }.

Definition ndim (a : ndarray) : nat := length (shape a).

Definition well_shaped (a : ndarray) : Prop :=
  length (data a) = fold_right Nat.mul 1 (shape a).

(** [N.array(a)]: a copy as a plain array. *)
Definition array (a : ndarray) : ndarray := a.

Definition unit_dim (d : nat) : bool := d =? 1.

(** [N.squeeze(a)]: the axes of length one are removed. *)
Definition squeeze (a : ndarray) : ndarray :=
  mk_ndarray (filter (fun d => negb (unit_dim d)) (shape a)) (data a).

(** [a ** -0.5] on an array: entry by entry. *)
Definition power_neg_half (a : ndarray) : ndarray :=
  mk_ndarray (shape a) (map pow_neg_half (data a)).

(** Entry [(i, j)] of a 2-d array with [c] columns. *)
Definition entry (c : nat) (d : list S) (i j : nat) : S :=
  nth (i * c + j) d szero.

Definition get2 (a : ndarray) (i j : nat) : S :=
  entry (nth 1 (shape a) 0) (data a) i j.

Definition get1 (a : ndarray) (i : nat) : S := nth i (data a) szero.

(** The entries of an [r] by [c] matrix given entry-wise. *)
Definition tabulate (r c : nat) (f : nat -> nat -> S) : list S :=
  flat_map (fun i => map (f i) (seq 0 c)) (seq 0 r).

(** [N.diag(v)]: a 1-d array becomes the square matrix with it on the
    diagonal, of a 2-d array the diagonal is taken out, anything else is
    refused. *)
Definition diag (v : ndarray) : res ndarray :=
  match shape v with
  | [n] =>
      Ok (mk_ndarray [n; n]
            (tabulate n n (fun i j => if i =? j then get1 v i else szero)))
  | [r; c] =>
      Ok (mk_ndarray [Nat.min r c]
            (map (fun i => entry c (data v) i i) (seq 0 (Nat.min r c))))
  | _ => Err (ValueError "Input must be 1- or 2-d.")
  end.

(** Assigning a shape to an array: refused when the number of entries
    would change. *)
Definition set_shape (new : list nat) (a : ndarray) : res ndarray :=
  if fold_right Nat.mul 1 new =? fold_right Nat.mul 1 (shape a)
  then Ok (mk_ndarray new (data a))
  else Err (ValueError "total size of new array must be unchanged").

(** The shape of the matrix view of an array of [shape], when it has one:
    no axis becomes 1 by 1, one axis becomes a row, two axes are kept. *)
Definition matrix_shape (shape : list nat) : res (list nat) :=
  match shape with
  | [] => Ok [1; 1]
  | [n] => Ok [1; n]
  | [r; c] => Ok [r; c]
  | _ => Err (ValueError "shape too large to be a matrix.")
  end.

(** [N.mat(a)]: the matrix view.  Two axes are kept and fewer are padded in
    front; of more than two, the axes of length greater than one are kept,
    and the array is refused if more than two of them remain. *)
Definition mat (a : ndarray) : res ndarray :=
  match shape a with
  | [] => Ok (mk_ndarray [1; 1] (data a))
  | [n] => Ok (mk_ndarray [1; n] (data a))
  | [_; _] => Ok a
  | _ =>
      res_bind (matrix_shape (filter (fun x => 1 <? x) (shape a)))
        (fun new => set_shape new a)
  end.

(** Sum of the products [f l * g l] for [l < n], accumulated from the
    left. *)
Definition dot (n : nat) (f g : nat -> S) : S :=
  fold_left sadd (map (fun l => smul (f l) (g l)) (seq 0 n)) szero.

(** [A * B] on matrices: the matrix product. *)
Definition matmul (A B : ndarray) : res ndarray :=
  match shape A, shape B with
  | [a; b], [b'; c] =>
      if b =? b' then
        Ok (mk_ndarray [a; c]
              (tabulate a c (fun i j =>
                 dot b (fun l => entry b (data A) i l)
                       (fun l => entry c (data B) l j))))
      else Err (ValueError "objects are not aligned")
  | _, _ => Err (ValueError "objects are not aligned")
  end.

End Arrays.
Arguments ndarray S : clear implicits.
End Numpy.
Import Numpy.

(** ** Collaborators of the engine *)

(** The callable injected as [save_mat]; [util.save_mat_text] is the default
    of the constructor. *)
Inductive MatSaver : Type :=
| save_mat_text
| custom_saver (name : string).

(** The callable injected as [load_mat]: what it returns for the argument it
    is called with; the argument is whatever the caller passed as a path,
    [None] included. *)
Definition MatLoader (S : Type) : Type := option Path -> ndarray S.

(** Modelled from the spec: the distributed-runtime facade [self.mpi], which
    [ModalDecomp.__init__] creates outside [bpod.py].  It exposes whether this
    worker is the coordinator (rank zero) and whether the run is distributed;
    its broadcast hands the coordinator's value to every worker. *)
Record MPI : Type := mk_MPI { rank : nat; parallel : bool }.

Definition isRankZero (m : MPI) : bool := rank m =? 0.
Definition isParallel (m : MPI) : bool := parallel m.

(** The methods that [bpod.py] calls and does not define: the base-class
    method [compute_inner_product_matrix] and [util.svd], each taken by the
    value it returns. *)
Class Collaborators (S : Type) : Type := {
  compute_inner_product_matrix : list Path -> list Path -> ndarray S;
  svd : ndarray S -> ndarray S * ndarray S * ndarray S
}.

(** Calls that leave the engine, in the order they are made by one worker. *)
Inductive event (S : Type) : Type :=
| EvInnerProductMatrix (rowPaths colPaths : list Path)
| EvSvd (H : ndarray S)
| EvLoadMat (path : option Path)
| EvSaveMat (saver : MatSaver) (m : option (ndarray S)) (path : Path)
| EvComputeModes (modeNumList : list Z) (modePath : Path)
    (snapPaths : option (list Path)) (buildCoeffMat : ndarray S)
    (indexFrom : Z).
Arguments EvInnerProductMatrix {S} rowPaths colPaths.
Arguments EvSvd {S} H.
Arguments EvLoadMat {S} path.
Arguments EvSaveMat {S} saver m path.
Arguments EvComputeModes {S} modeNumList modePath snapPaths buildCoeffMat
  indexFrom.

(** ** The engine instance *)

(** The attributes of a [BPOD] instance that [bpod.py] reads or assigns. *)
Record BPOD (S : Type) : Type := mk_BPOD {
  save_mat : option MatSaver;
  load_mat : option (MatLoader S);
  mpi : MPI;
  directSnapPaths : option (list Path);
  adjointSnapPaths : option (list Path);
  LSingVecs : option (ndarray S);
  singVals : option (ndarray S);
  RSingVecs : option (ndarray S);
  hankelMat : option (ndarray S)
}.

Section Attributes.
Context {S : Type}.

(** [BPOD.__init__]: the attributes are the constructor's arguments. *)
Definition BPOD_init (save_mat : option MatSaver)
    (load_mat : option (MatLoader S)) (mpi : MPI)
    (directSnapPaths adjointSnapPaths : option (list Path))
    (LSingVecs singVals RSingVecs hankelMat : option (ndarray S)) : BPOD S :=
  mk_BPOD save_mat load_mat mpi directSnapPaths adjointSnapPaths
    LSingVecs singVals RSingVecs hankelMat.

Definition set_load_mat (v : option (MatLoader S)) (b : BPOD S) : BPOD S :=
  mk_BPOD (save_mat b) v (mpi b) (directSnapPaths b) (adjointSnapPaths b)
    (LSingVecs b) (singVals b) (RSingVecs b) (hankelMat b).

Definition set_directSnapPaths (v : option (list Path)) (b : BPOD S)
    : BPOD S :=
  mk_BPOD (save_mat b) (load_mat b) (mpi b) v (adjointSnapPaths b)
    (LSingVecs b) (singVals b) (RSingVecs b) (hankelMat b).

Definition set_adjointSnapPaths (v : option (list Path)) (b : BPOD S)
    : BPOD S :=
  mk_BPOD (save_mat b) (load_mat b) (mpi b) (directSnapPaths b) v
    (LSingVecs b) (singVals b) (RSingVecs b) (hankelMat b).

Definition set_LSingVecs (v : option (ndarray S)) (b : BPOD S) : BPOD S :=
  mk_BPOD (save_mat b) (load_mat b) (mpi b) (directSnapPaths b)
    (adjointSnapPaths b) v (singVals b) (RSingVecs b) (hankelMat b).

Definition set_singVals (v : option (ndarray S)) (b : BPOD S) : BPOD S :=
  mk_BPOD (save_mat b) (load_mat b) (mpi b) (directSnapPaths b)
    (adjointSnapPaths b) (LSingVecs b) v (RSingVecs b) (hankelMat b).

Definition set_RSingVecs (v : option (ndarray S)) (b : BPOD S) : BPOD S :=
  mk_BPOD (save_mat b) (load_mat b) (mpi b) (directSnapPaths b)
    (adjointSnapPaths b) (LSingVecs b) (singVals b) v (hankelMat b).

Definition set_hankelMat (v : option (ndarray S)) (b : BPOD S) : BPOD S :=
  mk_BPOD (save_mat b) (load_mat b) (mpi b) (directSnapPaths b)
    (adjointSnapPaths b) (LSingVecs b) (singVals b) (RSingVecs b) v.

End Attributes.

(** ** The monad of a worker *)

(** What a worker has when a method is entered and when it is left: the
    instance and the calls made so far. *)
Record St (S : Type) : Type := mk_St { self : BPOD S; log : list (event S) }.

(** A worker's run up to its end or to its next broadcast.  At a broadcast the
    worker offers [v] (what it passes to [bcast]) and goes on with the value
    the collective returns to it. *)
Inductive Proc (S X : Type) : Type :=
| Done (x : X)
| Bcast (v : option (ndarray S)) (k : option (ndarray S) -> Proc S X).
Arguments Done {S X} x.
Arguments Bcast {S X} v k.

Fixpoint proc_bind {S X Y} (p : Proc S X) (g : X -> Proc S Y) : Proc S Y :=
  match p with
  | Done x => g x
  | Bcast v k => Bcast v (fun v' => proc_bind (k v') g)
  end.

Definition M (S A : Type) : Type := St S -> Proc S (res A * St S).

Section Monad.
Context {S : Type}.

Definition ret {A} (a : A) : M S A := fun s => Done (Ok a, s).

Definition raise {A} (e : exn) : M S A := fun s => Done (Err e, s).

Definition bind {A B} (m : M S A) (f : A -> M S B) : M S B :=
  fun s =>
    proc_bind (m s)
      (fun out =>
         match fst out with
         | Ok a => f a (snd out)
         | Err e => Done (Err e, snd out)
         end).

Definition get_self : M S (BPOD S) := fun s => Done (Ok (self s), s).

(** An assignment to an attribute of [self]. *)
Definition assign (f : BPOD S -> BPOD S) : M S unit :=
  fun s => Done (Ok tt, mk_St (f (self s)) (log s)).

Definition emit (e : event S) : M S unit :=
  fun s => Done (Ok tt, mk_St (self s) (log s ++ [e])).

(** A numpy expression: its value, or the exception it raises. *)
Definition lift {A} (r : res A) : M S A := fun s => Done (r, s).

(** [self.mpi.comm.bcast(v, root=0)]. *)
Definition bcast (v : option (ndarray S)) : M S (option (ndarray S)) :=
  fun s => Bcast v (fun v' => Done (Ok v', s)).

(** [if x is not None: body]. *)
Definition if_not_None {A} (x : option A) (body : A -> M S unit)
    : M S unit :=
  match x with Some a => body a | None => ret tt end.

End Monad.

Declare Scope py_scope.
Delimit Scope py_scope with py.
Notation "x <- m ;; k" := (bind m (fun x => k))
  (at level 61, m at next level, right associativity) : py_scope.
Notation "m ;; k" := (bind m (fun _ => k))
  (at level 61, right associativity) : py_scope.
Open Scope py_scope.

(** ** The methods of [BPOD] *)

Section Methods.
Context {S : Type} {ops : ScalarOps S} {col : Collaborators S}.

(** [self.load_mat(path)]. *)
Definition call_load_mat (path : option Path) : M S (ndarray S) :=
  b <- get_self ;;
  match load_mat b with
  | Some f => emit (EvLoadMat path) ;; ret (f path)
  | None => raise (TypeError "'NoneType' object is not callable")
  end.

(** [self.save_mat(m, path)]. *)
Definition call_save_mat (m : option (ndarray S)) (path : Path)
    : M S unit :=
  b <- get_self ;;
  match save_mat b with
  | Some f => emit (EvSaveMat f m path)
  | None => raise (TypeError "'NoneType' object is not callable")
  end.

(** [self.compute_inner_product_matrix(rowPaths, colPaths)]. *)
Definition call_compute_inner_product_matrix (rowPaths colPaths : list Path)
    : M S (ndarray S) :=
  emit (EvInnerProductMatrix rowPaths colPaths) ;;
  ret (compute_inner_product_matrix rowPaths colPaths).

(** [util.svd(H)]. *)
Definition call_svd (H : ndarray S)
    : M S (ndarray S * ndarray S * ndarray S) :=
  emit (EvSvd H) ;; ret (svd H).

(** [self._compute_modes(modeNumList, modePath, snapPaths, buildCoeffMat,
    indexFrom=indexFrom)]. *)
Definition call_compute_modes (modeNumList : list Z) (modePath : Path)
    (snapPaths : option (list Path)) (buildCoeffMat : ndarray S)
    (indexFrom : Z) : M S unit :=
  emit (EvComputeModes modeNumList modePath snapPaths buildCoeffMat
          indexFrom).

(** [N.mat(V) * N.mat(N.diag(sigma ** -0.5))], the operands evaluated from
    left to right. *)
Definition buildCoeffMat_of (V sigma : ndarray S) : res (ndarray S) :=
  res_bind (mat V) (fun mV =>
  res_bind (diag (power_neg_half sigma)) (fun d =>
  res_bind (mat d) (fun mD =>
  matmul mV mD))).

(** [BPOD.load_decomp]. *)
Definition load_decomp
    (hankelMatPath LSingVecsPath singValsPath RSingVecsPath : option Path)
    (load_mat_arg : option (MatLoader S)) : M S unit :=
  if_not_None load_mat_arg (fun f => assign (set_load_mat (Some f))) ;;
  b <- get_self ;;
  match load_mat b with
  | None => raise (NameError "UndefinedError")
  | Some _ =>
      (if isRankZero (mpi b) then
         l <- call_load_mat LSingVecsPath ;;
         assign (set_LSingVecs (Some l)) ;;
         s <- call_load_mat singValsPath ;;
         assign (set_singVals (Some (squeeze (array s)))) ;;
         r <- call_load_mat RSingVecsPath ;;
         assign (set_RSingVecs (Some r))
       else
         assign (set_LSingVecs None) ;;
         assign (set_singVals None) ;;
         assign (set_RSingVecs None)) ;;
      if parallel (mpi b) then
        b1 <- get_self ;;
        l <- bcast (LSingVecs b1) ;;
        assign (set_LSingVecs l) ;;
        b2 <- get_self ;;
        s <- bcast (singVals b2) ;;
        assign (set_singVals s) ;;
        b3 <- get_self ;;
        r <- bcast (LSingVecs b3) ;;
        assign (set_RSingVecs r)
      else ret tt
  end.

(** [BPOD.save_decomp]. *)
Definition save_decomp
    (hankelMatPath LSingVecsPath singValsPath RSingVecsPath : option Path)
    : M S unit :=
  b <- get_self ;;
  match save_mat b with
  | None =>
      if isRankZero (mpi b)
      then raise (UndefinedError "save_mat is undefined, cant save")
      else ret tt
  | Some _ => ret tt
  end ;;
  if isRankZero (mpi b) then
    if_not_None hankelMatPath (fun p =>
      b' <- get_self ;; call_save_mat (hankelMat b') p) ;;
    if_not_None LSingVecsPath (fun p =>
      b' <- get_self ;; call_save_mat (LSingVecs b') p) ;;
    if_not_None RSingVecsPath (fun p =>
      b' <- get_self ;; call_save_mat (RSingVecs b') p) ;;
    if_not_None singValsPath (fun p =>
      b' <- get_self ;; call_save_mat (singVals b') p)
  else ret tt.

(** The defaults of the path arguments of [compute_decomp]. *)
Definition default_hankelMatPath : option Path := Some "hankelMat.txt"%string.
Definition default_LSingVecsPath : option Path := Some "LSingVecs.txt"%string.
Definition default_singValsPath : option Path := Some "singVals.txt"%string.
Definition default_RSingVecsPath : option Path := Some "RSingVecs.txt"%string.

(** [BPOD.compute_decomp]. *)
Definition compute_decomp
    (hankelMatPath LSingVecsPath singValsPath RSingVecsPath : option Path)
    (directSnapPaths_arg adjointSnapPaths_arg : option (list Path))
    : M S unit :=
  if_not_None directSnapPaths_arg (fun d =>
    assign (set_directSnapPaths (Some d))) ;;
  if_not_None adjointSnapPaths_arg (fun a =>
    assign (set_adjointSnapPaths (Some a))) ;;
  b <- get_self ;;
  match directSnapPaths b with
  | None => raise (UndefinedError "directSnapPaths is not given")
  | Some d =>
      match adjointSnapPaths b with
      | None => raise (UndefinedError "adjointSnapPaths is not given")
      | Some a =>
          h <- call_compute_inner_product_matrix a d ;;
          assign (set_hankelMat (Some h)) ;;
          (if isRankZero (mpi b) then
             lsr <- call_svd h ;;
             assign (set_LSingVecs (Some (fst (fst lsr)))) ;;
             assign (set_singVals (Some (snd (fst lsr)))) ;;
             assign (set_RSingVecs (Some (snd lsr)))
           else
             assign (set_LSingVecs None) ;;
             assign (set_RSingVecs None) ;;
             assign (set_singVals None)) ;;
          (if isParallel (mpi b) then
             b1 <- get_self ;;
             l <- bcast (LSingVecs b1) ;;
             assign (set_LSingVecs l) ;;
             b2 <- get_self ;;
             s <- bcast (singVals b2) ;;
             assign (set_singVals s) ;;
             b3 <- get_self ;;
             r <- bcast (RSingVecs b3) ;;
             assign (set_RSingVecs r)
           else ret tt) ;;
          save_decomp hankelMatPath LSingVecsPath singValsPath RSingVecsPath
      end
  end.

(** [BPOD.compute_direct_modes]. *)
Definition compute_direct_modes (modeNumList : list Z) (modePath : Path)
    (indexFrom : Z) (directSnapPaths_arg : option (list Path)) : M S unit :=
  b <- get_self ;;
  match RSingVecs b with
  | None => raise (UndefinedError "Must define self.RSingVecs")
  | Some R =>
      match singVals b with
      | None => raise (UndefinedError "Must define self.singVals")
      | Some sigma =>
          if_not_None directSnapPaths_arg (fun d =>
            assign (set_directSnapPaths (Some d))) ;;
          buildCoeffMat <- lift (buildCoeffMat_of R sigma) ;;
          b' <- get_self ;;
          call_compute_modes modeNumList modePath (directSnapPaths b')
            buildCoeffMat indexFrom
      end
  end.

(** [BPOD.compute_adjoint_modes]. *)
Definition compute_adjoint_modes (modeNumList : list Z) (modePath : Path)
    (indexFrom : Z) (adjointSnapPaths_arg : option (list Path)) : M S unit :=
  b <- get_self ;;
  match LSingVecs b with
  | None => raise (NameError "UndefinedError")
  | Some L =>
      match singVals b with
      | None => raise (NameError "UndefinedError")
      | Some sigma =>
          if_not_None adjointSnapPaths_arg (fun a =>
            assign (set_adjointSnapPaths (Some a))) ;;
          assign (set_singVals (Some (squeeze (array sigma)))) ;;
          buildCoeffMat <-
            lift (buildCoeffMat_of L (squeeze (array sigma))) ;;
          b' <- get_self ;;
          call_compute_modes modeNumList modePath (adjointSnapPaths b')
            buildCoeffMat indexFrom
      end
  end.

End Methods.

(** ** Runs of one worker and of a world of workers *)

Section Runs.
Context {S X : Type}.

(** The run of the coordinator, and of the only worker of a serial run: a
    broadcast returns the value it was given. *)
Fixpoint run_alone (p : Proc S X) : X :=
  match p with
  | Done x => x
  | Bcast v k => run_alone (k v)
  end.

(** [P] holds when the worker is done, whatever the broadcasts return. *)
Fixpoint always (P : X -> Prop) (p : Proc S X) : Prop :=
  match p with
  | Done x => P x
  | Bcast _ k => forall v, always P (k v)
  end.

Fixpoint all_done (ps : list (Proc S X)) : option (list X) :=
  match ps with
  | [] => Some []
  | Done x :: ps' => option_map (cons x) (all_done ps')
  | Bcast _ _ :: _ => None
  end.

Fixpoint all_recv (v : option (ndarray S)) (ps : list (Proc S X))
    : option (list (Proc S X)) :=
  match ps with
  | [] => Some []
  | Bcast _ k :: ps' => option_map (cons (k v)) (all_recv v ps')
  | Done _ :: _ => None
  end.

(** Modelled from the spec: the broadcast of the distributed-runtime facade,
    which [bpod.py] reaches as [self.mpi.comm.bcast(value, root=0)].  It is
    a synchronous collective: every worker enters it, and every worker
    leaves it with the value the coordinator gave.  [root] is the
    coordinator's run and [others] the runs of the other workers; a world
    where some worker is done while another waits at a broadcast never
    finishes, which is [None]. *)
Fixpoint run_world (root : Proc S X) (others : list (Proc S X))
    : option (X * list X) :=
  match root with
  | Done x => option_map (pair x) (all_done others)
  | Bcast v k =>
      match all_recv v others with
      | Some others' => run_world (k v) others'
      | None => None
      end
  end.

(** The values the coordinator hands out, broadcast after broadcast. *)
Fixpoint sent (p : Proc S X) : list (option (ndarray S)) :=
  match p with
  | Done _ => []
  | Bcast v k => v :: sent (k v)
  end.

(** The run of a worker that receives [vs] from its broadcasts, one value
    each; [None] when it enters fewer or more broadcasts than that. *)
Fixpoint run_recv (vs : list (option (ndarray S))) (p : Proc S X)
    : option X :=
  match p, vs with
  | Done x, [] => Some x
  | Bcast _ k, v :: vs' => run_recv vs' (k v)
  | _, _ => None
  end.

End Runs.

(** ** The inner-product matrix builder *)

Section InnerProductMatrix.
Context {S Field : Type}.
Variable load_field : Path -> Field.
Variable inner_product : Field -> Field -> S.

(** Modelled from the spec: [ModalDecomp.compute_inner_product_matrix],
    which is not in [bpod.py].  Given two ordered lists of snapshot paths
    it returns the matrix of pairwise inner products of the loaded fields,
    the first list indexing the rows and the second the columns. *)
Definition inner_product_matrix (rowPaths colPaths : list Path)
    : ndarray S :=
  mk_ndarray [length rowPaths; length colPaths]
    (flat_map
       (fun r =>
          map (fun c => inner_product (load_field r) (load_field c))
            colPaths)
       rowPaths).

Definition builder_collaborators
    (svd0 : ndarray S -> ndarray S * ndarray S * ndarray S)
    : Collaborators S :=
  {| compute_inner_product_matrix := inner_product_matrix; svd := svd0 |}.

End InnerProductMatrix.

(** ** Vocabulary of the statements *)

Section Vocabulary.
Context {S : Type} {ops : ScalarOps S} {col : Collaborators S}.

(** An argument that replaces an attribute when it is not [None]. *)
Definition or_else {A} (arg attr : option A) : option A :=
  match arg with Some x => Some x | None => attr end.

(** The two mode reconstructions. *)
Inductive Side : Type := Direct | Adjoint.

Definition compute_modes_of (side : Side) :=
  match side with
  | Direct => compute_direct_modes
  | Adjoint => compute_adjoint_modes
  end.

Definition singVecs_of (side : Side) (b : BPOD S) : option (ndarray S) :=
  match side with Direct => RSingVecs b | Adjoint => LSingVecs b end.

Definition snapPaths_of (side : Side) (b : BPOD S) : option (list Path) :=
  match side with
  | Direct => directSnapPaths b
  | Adjoint => adjointSnapPaths b
  end.

Definition set_snapPaths_of (side : Side) (arg : option (list Path))
    (b : BPOD S) : BPOD S :=
  match arg with
  | None => b
  | Some p =>
      match side with
      | Direct => set_directSnapPaths (Some p) b
      | Adjoint => set_adjointSnapPaths (Some p) b
      end
  end.

(** The singular values as the reconstruction uses them. *)
Definition sigma_used (side : Side) (sigma : ndarray S) : ndarray S :=
  match side with Direct => sigma | Adjoint => squeeze sigma end.

(** Entry [(l, j)] of diag(sigma^(-1/2)). *)
Definition diag_entry (sigma : ndarray S) (l j : nat) : S :=
  if l =? j then pow_neg_half (get1 sigma l) else szero.

(** Entry [(i, j)] of [V . diag(sigma^(-1/2))] for [V] with [k] columns:
    the sum over [l < k] of [V[i,l] * diag(sigma^(-1/2))[l,j]]. *)
Definition coeff_entry (k : nat) (V sigma : ndarray S) (i j : nat) : S :=
  dot k (fun l => get2 V i l) (fun l => diag_entry sigma l j).

(** The method fails with [util.UndefinedError] at once: no call has left
    the engine, no broadcast was entered, and no attribute other than the
    ones the arguments replace has changed. *)
Definition fails_undefined_first (s : St S)
    (p : Proc S (res unit * St S)) : Prop :=
  exists msg b',
    p = Done (Err (UndefinedError msg), mk_St b' (log s)) /\
    LSingVecs b' = LSingVecs (self s) /\
    singVals b' = singVals (self s) /\
    RSingVecs b' = RSingVecs (self s) /\
    hankelMat b' = hankelMat (self s).

(** The write of one artifact by [save_decomp]: made when its path is
    given. *)
Definition write_of (sv : MatSaver) (m : option (ndarray S))
    (path : option Path) : list (event S) :=
  match path with Some p => [EvSaveMat sv m p] | None => [] end.

(** The writes of [save_decomp] on the coordinator, in the order made. *)
Definition writes_of (sv : MatSaver) (b : BPOD S)
    (hankelMatPath LSingVecsPath singValsPath RSingVecsPath : option Path)
    : list (event S) :=
  write_of sv (hankelMat b) hankelMatPath ++
  write_of sv (LSingVecs b) LSingVecsPath ++
  write_of sv (RSingVecs b) RSingVecsPath ++
  write_of sv (singVals b) singValsPath.

(** One artifact after a load as the specification words it: read from its
    path when the path is given, left as it was otherwise. *)
Definition loaded_or_left (ld : MatLoader S) (norm : ndarray S -> ndarray S)
    (path : option Path) (before after : option (ndarray S)) : Prop :=
  match path with
  | Some p => after = Some (norm (ld (Some p)))
  | None => after = before
  end.

(** The load of all four artifacts as the specification words it; the
    loader is never called without a path. *)
Definition load_as_specified (ld : MatLoader S)
    (hankelMatPath LSingVecsPath singValsPath RSingVecsPath : option Path)
    (before after : St S) : Prop :=
  loaded_or_left ld (fun a => a) hankelMatPath
    (hankelMat (self before)) (hankelMat (self after)) /\
  loaded_or_left ld (fun a => a) LSingVecsPath
    (LSingVecs (self before)) (LSingVecs (self after)) /\
  loaded_or_left ld squeeze singValsPath
    (singVals (self before)) (singVals (self after)) /\
  loaded_or_left ld (fun a => a) RSingVecsPath
    (RSingVecs (self before)) (RSingVecs (self after)) /\
  ~ In (EvLoadMat None) (log after).

(** The instance on leaving the rank branch of [compute_decomp], the Hankel
  matrix [h] built: the coordinator holds the factors of [h], any other
  worker holds [None] for each. *)
Definition factored (h : ndarray S) (b : BPOD S) : BPOD S :=
  if isRankZero (mpi b) then
    set_RSingVecs (Some (snd (svd h)))
      (set_singVals (Some (snd (fst (svd h))))
         (set_LSingVecs (Some (fst (fst (svd h))))
            (set_hankelMat (Some h) b)))
  else
    set_singVals None
      (set_RSingVecs None (set_LSingVecs None (set_hankelMat (Some h) b))).

(** The trace at that point, for the row and column paths [a] and [d]. *)
Definition factored_log (a d : list Path) (h : ndarray S) (b : BPOD S)
    (lg : list (event S)) : list (event S) :=
  if isRankZero (mpi b)
  then (lg ++ [EvInnerProductMatrix a d]) ++ [EvSvd h]
  else lg ++ [EvInnerProductMatrix a d].

(** The instance on leaving the rank branch of [load_decomp], the loader
    being [ld]. *)
Definition loaded (ld : MatLoader S) (lp sp rp : option Path) (b : BPOD S)
    : BPOD S :=
  if isRankZero (mpi b) then
    set_RSingVecs (Some (ld rp))
      (set_singVals (Some (squeeze (array (ld sp))))
         (set_LSingVecs (Some (ld lp)) b))
  else set_RSingVecs None (set_singVals None (set_LSingVecs None b)).

Definition loaded_log (lp sp rp : option Path) (b : BPOD S)
    (lg : list (event S)) : list (event S) :=
  if isRankZero (mpi b)
  then ((lg ++ [EvLoadMat lp]) ++ [EvLoadMat sp]) ++ [EvLoadMat rp]
  else lg.

(** The instance after the three broadcasts returned [l], [s] and [r]. *)
Definition received (l s r : option (ndarray S)) (b : BPOD S) : BPOD S :=
  set_RSingVecs r (set_singVals s (set_LSingVecs l b)).

(** The stored singular values are a flat sequence. *)
Definition flat_singVals (b : BPOD S) : Prop :=
  exists sigma, singVals b = Some sigma /\ ndim sigma = 1.

End Vocabulary.

(** ** A concrete world for the examples *)

Module Examples.

(** Scalars as formal expressions: sums, products and powers are kept as
    written, so nothing is assumed of floating-point arithmetic. *)
Inductive Sym : Type :=
| Lit (z : Z)
| Add (x y : Sym)
| Mul (x y : Sym)
| PowNegHalf (x : Sym).

#[export] Instance Sym_ops : ScalarOps Sym :=
  {| szero := Lit 0; sadd := Add; smul := Mul; pow_neg_half := PowNegHalf |}.

(** Snapshots are vectors of integers and the inner product is the dot
    product, as in the example of the specification. *)
Definition Field : Type := list Z.

Definition load_field (p : Path) : Field :=
  if String.eqb p "d1" then [1; 0]%Z
  else if String.eqb p "d2" then [0; 1]%Z
  else if String.eqb p "a1" then [1; 0]%Z
  else if String.eqb p "a2" then [0; 1]%Z
  else if String.eqb p "a3" then [1; 1]%Z
  else [].

Definition inner_product (f g : Field) : Sym :=
  Lit (fold_right Z.add 0%Z (map (fun xy => (fst xy * snd xy)%Z) (combine f g))).

Definition direct_paths : list Path := ["d1"; "d2"]%string.
Definition adjoint_paths : list Path := ["a1"; "a2"; "a3"]%string.

(** A factorisation routine that returns the singular values as a flat
    sequence: [H = H . diag(1, ..., 1) . I]. *)
Definition unit_factors (H : ndarray Sym)
    : ndarray Sym * ndarray Sym * ndarray Sym :=
  let c := nth 1 (shape H) 0 in
  (H,
   mk_ndarray [c] (repeat (Lit 1) c),
   mk_ndarray [c; c] (tabulate c c (fun i j => if i =? j then Lit 1 else Lit 0))).

(** A factorisation routine whose native output holds the singular values
    as a square matrix. *)
Definition matrix_factors (H : ndarray Sym)
    : ndarray Sym * ndarray Sym * ndarray Sym :=
  let c := nth 1 (shape H) 0 in
  (H,
   mk_ndarray [c; c] (tabulate c c (fun i j => if i =? j then Lit 1 else Lit 0)),
   mk_ndarray [c; c] (tabulate c c (fun i j => if i =? j then Lit 1 else Lit 0))).

Definition flat_col : Collaborators Sym :=
  builder_collaborators load_field inner_product unit_factors.

Definition matrix_col : Collaborators Sym :=
  builder_collaborators load_field inner_product matrix_factors.

Definition lits (zs : list Z) : list Sym := map Lit zs.

(** Persisted matrices: left vectors 3 by 2, right vectors 2 by 2, the two
    singular values as a row, and a lone singular value as a 1 by 1 matrix. *)
Definition L_file : ndarray Sym := mk_ndarray [3; 2] (lits [1; 2; 3; 4; 5; 6]%Z).
Definition R_file : ndarray Sym := mk_ndarray [2; 2] (lits [7; 8; 9; 10]%Z).
Definition S_file : ndarray Sym := mk_ndarray [1; 2] (lits [4; 9]%Z).
Definition S1_file : ndarray Sym := mk_ndarray [1; 1] (lits [4]%Z).
Definition H_file : ndarray Sym := mk_ndarray [3; 2] (lits [1; 0; 0; 1; 1; 1]%Z).

Definition loader : MatLoader Sym :=
  fun p =>
    match p with
    | None => mk_ndarray [] []
    | Some q =>
        if String.eqb q "L.txt" then L_file
        else if String.eqb q "R.txt" then R_file
        else if String.eqb q "S.txt" then S_file
        else if String.eqb q "S1.txt" then S1_file
        else if String.eqb q "H.txt" then H_file
        else mk_ndarray [] []
    end.

(** A fresh engine of the worker of rank [r]. *)
Definition fresh (r : nat) (par : bool) (saver : option MatSaver)
    (d a : option (list Path)) : BPOD Sym :=
  BPOD_init saver (Some loader) (mk_MPI r par) d a None None None None.

(** An engine holding a decomposition, the singular values still in the
    row form they were persisted in. *)
Definition decomposed : BPOD Sym :=
  BPOD_init (Some save_mat_text) (Some loader) (mk_MPI 0 false)
    (Some direct_paths) (Some adjoint_paths)
    (Some L_file) (Some S_file) (Some R_file) (Some H_file).

(** The same with the singular values flat. *)
Definition decomposed_flat : BPOD Sym :=
  set_singVals (Some (squeeze S_file)) decomposed.

Definition start (b : BPOD Sym) : St Sym := mk_St b [].

(** The same formal expressions, with a zero term dropped from a sum and a
    product by zero replaced by zero: scalars for which zero is neutral for
    the sum and absorbing for the product. *)
Definition simplifying_ops : ScalarOps Sym :=
  {| szero := Lit 0;
     sadd := fun x y =>
       match x, y with
       | Lit Z0, _ => y
       | _, Lit Z0 => x
       | _, _ => Add x y
       end;
     smul := fun x y =>
       match y with
       | Lit Z0 => Lit 0
       | _ => Mul x y
       end;
     pow_neg_half := PowNegHalf |}.

(** A worker whose path lists are unset. *)
Definition unset (r : nat) (par : bool) : BPOD Sym :=
  fresh r par (Some save_mat_text) None None.

(** One direct snapshot against the three adjoint ones: the Hankel matrix
    is a column and there is one singular value. *)
Definition one_direct_path : list Path := ["d1"]%string.

(** The engine that [compute_decomp] leaves on those paths with the
    factorisation [unit_factors]: three-by-one left vectors, one singular
    value in a flat sequence, one-by-one right vectors. *)
Definition single_value : BPOD Sym :=
  BPOD_init (Some save_mat_text) (Some loader) (mk_MPI 0 false)
    (Some one_direct_path) (Some adjoint_paths)
    (Some (mk_ndarray [3; 1] (lits [1; 0; 1]%Z)))
    (Some (mk_ndarray [1] (lits [1]%Z)))
    (Some (mk_ndarray [1; 1] (lits [1]%Z)))
    (Some (mk_ndarray [3; 1] (lits [1; 0; 1]%Z))).

(** The worker after [compute_decomp] on those paths. *)
Definition after_one_direct : St Sym :=
  snd (run_alone
         (@compute_decomp Sym flat_col None None None None
            (Some one_direct_path) (Some adjoint_paths)
            (start (fresh 0 false (Some save_mat_text) None None)))).

(** A worker with no loader and no saver. *)
Definition bare (r : nat) (par : bool) : BPOD Sym :=
  BPOD_init None None (mk_MPI r par) None None None None None None.

(** A worker whose path lists are the ones of the example. *)
Definition ready (r : nat) (par : bool) : BPOD Sym :=
  fresh r par (Some save_mat_text) (Some direct_paths) (Some adjoint_paths).

End Examples.

(** * Properties *)

(** One step of symbolic execution: the monad's operations and the calls to
    the collaborators are unfolded and the run is computed as far as it
    goes. *)
Ltac run_py :=
  cbv [bind ret raise get_self assign emit lift bcast if_not_None proc_bind
       call_load_mat call_save_mat call_compute_inner_product_matrix
       call_svd call_compute_modes];
  simpl.

(** ** Facts on arrays *)

Section ArrayFacts.
Context {S : Type} {ops : ScalarOps S}.

Lemma nth_flat_map_rows {A B : Type} (f : A -> list B) (c : nat) (a0 : A)
    (d : B) (l : list A) :
  (forall x, length (f x) = c) ->
  forall i j, i < length l -> j < c ->
  nth (i * c + j) (flat_map f l) d = nth j (f (nth i l a0)) d.
Proof.
  intros Hlen. induction l as [|x l IH]; intros i j Hi Hj; simpl in *.
  - lia.
  - destruct i as [|i]; simpl.
    + rewrite app_nth1 by (rewrite Hlen; exact Hj). reflexivity.
    + rewrite app_nth2 by (rewrite Hlen; lia).
      rewrite Hlen.
      replace (c + i * c + j - c) with (i * c + j) by lia.
      apply IH; lia.
Qed.

Lemma entry_tabulate (r c : nat) (f : nat -> nat -> S) (i j : nat) :
  i < r -> j < c -> entry c (tabulate r c f) i j = f i j.
Proof.
  intros Hi Hj. unfold entry, tabulate.
  rewrite (nth_flat_map_rows (fun i => map (f i) (seq 0 c)) 0 szero).
  - rewrite seq_nth by exact Hi. simpl.
    rewrite (nth_indep _ szero (f i 0)) by (rewrite length_map, length_seq; exact Hj).
    rewrite map_nth, seq_nth by exact Hj. reflexivity.
  - intros x. rewrite length_map, length_seq. reflexivity.
  - rewrite length_seq. exact Hi.
  - exact Hj.
Qed.

Lemma length_tabulate (r c : nat) (f : nat -> nat -> S) :
  length (tabulate r c f) = r * c.
Proof.
  unfold tabulate. generalize 0 at 2. induction r as [|r IH]; intros s; simpl.
  - reflexivity.
  - rewrite length_app, length_map, length_seq, IH. reflexivity.
Qed.

Lemma dot_ext (n : nat) (f f' g g' : nat -> S) :
  (forall l, l < n -> f l = f' l) ->
  (forall l, l < n -> g l = g' l) ->
  dot n f g = dot n f' g'.
Proof.
  intros Hf Hg. unfold dot. f_equal.
  apply map_ext_in. intros l Hl. apply in_seq in Hl.
  rewrite Hf, Hg by lia. reflexivity.
Qed.

(** The square matrix that [diag] builds from a flat sequence. *)
Lemma diag_flat (v : ndarray S) (k : nat) :
  shape v = [k] ->
  exists D, diag v = Ok D /\ shape D = [k; k] /\
    forall l j, l < k -> j < k ->
      entry k (data D) l j = if l =? j then get1 v l else szero.
Proof.
  intros Hv. unfold diag. rewrite Hv.
  eexists. split; [reflexivity|]. split; [reflexivity|].
  intros l j Hl Hj. simpl. apply entry_tabulate; assumption.
Qed.

Lemma get1_power_neg_half (v : ndarray S) (i : nat) :
  i < length (data v) ->
  get1 (power_neg_half v) i = pow_neg_half (get1 v i).
Proof.
  intros Hi. unfold get1, power_neg_half. simpl.
  rewrite (nth_indep _ szero (pow_neg_half szero))
    by (rewrite length_map; exact Hi).
  apply map_nth.
Qed.

(** Squeezing keeps the entries and their order. *)
Lemma squeeze_data (a : ndarray S) : data (squeeze a) = data a.
Proof. reflexivity. Qed.


(** A row, a column or a flat sequence of [n <> 1] entries squeezes to the
    flat sequence of length [n]. *)
Lemma squeeze_vector (a : ndarray S) (n : nat) :
  n <> 1 -> shape a = [n] \/ shape a = [1; n] \/ shape a = [n; 1] ->
  shape (squeeze a) = [n].
Proof.
  intros Hn Hs. unfold squeeze. simpl.
  assert (Hb : negb (unit_dim n) = true).
  { unfold unit_dim. apply Bool.negb_true_iff. apply Nat.eqb_neq. exact Hn. }
  destruct Hs as [Hs|[Hs|Hs]]; rewrite Hs; simpl; rewrite Hb; reflexivity.
Qed.

(** An array whose axes are all of length one squeezes to a 0-d array. *)
Lemma squeeze_all_units (a : ndarray S) :
  Forall (fun d => d = 1) (shape a) -> shape (squeeze a) = [].
Proof.
  unfold squeeze. simpl. induction 1 as [|d l Hd _ IH]; simpl.
  - reflexivity.
  - subst d. simpl. exact IH.
Qed.

End ArrayFacts.

(** ** The coefficient matrix *)

Section Coefficients.
Context {S : Type} {ops : ScalarOps S} {col : Collaborators S}.

(** The expression [N.mat(V) * N.mat(N.diag(sigma ** -0.5))] evaluates, for
    [V] with as many columns as [sigma] has entries, to the matrix
    [V . diag(sigma^(-1/2))]. *)
Lemma buildCoeffMat_of_entries (V sigma : ndarray S) (m k : nat) :
  shape V = [m; k] -> shape sigma = [k] -> well_shaped sigma ->
  exists C, buildCoeffMat_of V sigma = Ok C /\ shape C = [m; k] /\
    forall i j, i < m -> j < k -> get2 C i j = coeff_entry k V sigma i j.
Proof.
  intros HV Hs Hw.
  assert (Hlen : length (data sigma) = k).
  { unfold well_shaped in Hw. rewrite Hs in Hw. simpl in Hw. lia. }
  destruct (diag_flat (power_neg_half sigma) (k := k)) as (D & HD & HsD & HeD).
  { simpl. exact Hs. }
  unfold buildCoeffMat_of, mat. rewrite HV. simpl. rewrite HD. simpl.
  rewrite HsD. simpl. unfold matmul. rewrite HV, HsD, Nat.eqb_refl.
  eexists. split; [reflexivity|]. split; [reflexivity|].
  intros i j Hi Hj. unfold get2. simpl.
  rewrite entry_tabulate by assumption.
  unfold coeff_entry. apply dot_ext; intros l Hl.
  - unfold get2. rewrite HV. reflexivity.
  - rewrite HeD by assumption. unfold diag_entry.
    destruct (l =? j); [|reflexivity].
    apply get1_power_neg_half. lia.
Qed.

End Coefficients.

(** Where zero is neutral for the sum and absorbing for the product, the
    sum that defines an entry of [V . diag(sigma^(-1/2))] has one term left:
    column [j] of [V] scaled by [sigma[j]^(-1/2)]. *)
Section ColumnScaling.
Context {S : Type} {ops : ScalarOps S}.
Hypothesis sadd_zero_l : forall x : S, sadd szero x = x.
Hypothesis sadd_zero_r : forall x : S, sadd x szero = x.
Hypothesis smul_zero_r : forall x : S, smul x szero = szero.

Lemma fold_single_term (f : nat -> S) (c : S) (j : nat) (l : list nat)
    (acc : S) :
  NoDup l ->
  fold_left sadd
    (map (fun i => smul (f i) (if i =? j then c else szero)) l) acc =
  if existsb (Nat.eqb j) l then sadd acc (smul (f j) c) else acc.
Proof.
  intros Hnd. revert acc. induction Hnd as [|x l Hx Hnd IH]; intros acc.
  - reflexivity.
  - simpl. rewrite IH. destruct (Nat.eqb_spec x j) as [->|Hne].
    + rewrite Nat.eqb_refl. simpl.
      destruct (existsb (Nat.eqb j) l) eqn:Hex; [|reflexivity].
      apply existsb_exists in Hex. destruct Hex as (y & Hy & Hjy).
      apply Nat.eqb_eq in Hjy. subst y. contradiction.
    + rewrite smul_zero_r, sadd_zero_r.
      destruct (Nat.eqb_spec j x) as [->|_]; [contradiction|]. reflexivity.
Qed.

Lemma coeff_entry_scales (k : nat) (V sigma : ndarray S) (i j : nat) :
  j < k ->
  coeff_entry k V sigma i j = smul (get2 V i j) (pow_neg_half (get1 sigma j)).
Proof.
  intros Hj. unfold coeff_entry, dot.
  rewrite (map_ext
             (fun l => smul (get2 V i l) (diag_entry sigma l j))
             (fun l => smul (get2 V i l)
                         (if l =? j then pow_neg_half (get1 sigma j)
                          else szero))).
  - rewrite fold_single_term by apply seq_NoDup.
    assert (Hex : existsb (Nat.eqb j) (seq 0 k) = true).
    { apply existsb_exists. exists j. split.
      - apply in_seq. lia.
      - apply Nat.eqb_refl. }
    rewrite Hex. apply sadd_zero_l.
  - intros l. unfold diag_entry.
    destruct (Nat.eqb_spec l j) as [->|_]; reflexivity.
Qed.

End ColumnScaling.

(** ** Mode reconstruction *)

Section Modes.
Context {S : Type} {ops : ScalarOps S} {col : Collaborators S}.

Lemma well_shaped_squeeze (a : ndarray S) :
  well_shaped a -> well_shaped (squeeze a).
Proof.
  unfold well_shaped, squeeze. simpl. intros ->.
  induction (shape a) as [|d l IH]; simpl.
  - reflexivity.
  - unfold unit_dim at 1. destruct (Nat.eqb_spec d 1) as [->|Hd]; simpl.
    + rewrite IH. lia.
    + rewrite IH. reflexivity.
Qed.

Lemma well_shaped_sigma_used (side : Side) (sigma : ndarray S) :
  well_shaped sigma -> well_shaped (sigma_used side sigma).
Proof.
  destruct side; simpl; [trivial | apply well_shaped_squeeze].
Qed.

(** The run of a reconstruction on a populated engine, by the value of the
    coefficient expression. *)
Lemma compute_modes_of_run (side : Side) (b : BPOD S) (lg : list (event S))
    (modeNumList : list Z) (modePath : Path) (indexFrom : Z)
    (arg : option (list Path)) (V sigma : ndarray S) :
  singVecs_of side b = Some V -> singVals b = Some sigma ->
  exists b',
    singVals b' = Some (sigma_used side sigma) /\
    hankelMat b' = hankelMat b /\
    LSingVecs b' = LSingVecs b /\
    RSingVecs b' = RSingVecs b /\
    snapPaths_of side b' = or_else arg (snapPaths_of side b) /\
    compute_modes_of side modeNumList modePath indexFrom arg (mk_St b lg) =
      match buildCoeffMat_of V (sigma_used side sigma) with
      | Ok C =>
          Done (Ok tt,
                mk_St b'
                  (lg ++ [EvComputeModes modeNumList modePath
                            (or_else arg (snapPaths_of side b)) C indexFrom]))
      | Err e => Done (Err e, mk_St b' lg)
      end.
Proof.
  intros HV Hs. destruct b as [sv ld mp dp ap L sg R H].
  destruct side; simpl in HV, Hs; subst.
  - exists (set_snapPaths_of Direct arg
              (mk_BPOD sv ld mp dp ap L (Some sigma) (Some V) H)).
    destruct arg as [d|]; simpl;
      (repeat split; try reflexivity);
      unfold compute_direct_modes, bind; simpl;
      destruct (buildCoeffMat_of V sigma); reflexivity.
  - exists (set_singVals (Some (squeeze sigma))
              (set_snapPaths_of Adjoint arg
                 (mk_BPOD sv ld mp dp ap (Some V) (Some sigma) R H))).
    destruct arg as [a|]; simpl;
      (repeat split; try reflexivity);
      unfold compute_adjoint_modes, bind; simpl;
      destruct (buildCoeffMat_of V (squeeze sigma)); reflexivity.
Qed.


(** C4. A reconstruction asked of an engine whose singular vectors or
    singular values are unset stops at once, with no attribute changed and no
    call made; the direct one raises [util.UndefinedError], the adjoint one
    raises [NameError], the class name being unqualified there. *)
Theorem compute_modes_unpopulated (side : Side) (b : BPOD S)
    (lg : list (event S)) (modeNumList : list Z) (modePath : Path)
    (indexFrom : Z) (arg : option (list Path)) :
  singVecs_of side b = None \/ singVals b = None ->
  exists e,
    compute_modes_of side modeNumList modePath indexFrom arg (mk_St b lg) =
      Done (Err e, mk_St b lg) /\
    match side with
    | Direct => is_UndefinedError e = true
    | Adjoint => e = NameError "UndefinedError"
    end.
Proof.
  intros Hun. destruct b as [sv ld mp dp ap L sg R H].
  destruct side; simpl in Hun.
  - destruct R as [R|].
    + destruct Hun as [Hun|Hun]; [discriminate|]. subst sg.
      eexists. split; [reflexivity|reflexivity].
    + eexists. split; [reflexivity|reflexivity].
  - destruct L as [L|].
    + destruct Hun as [Hun|Hun]; [discriminate|]. subst sg.
      eexists. split; [reflexivity|reflexivity].
    + eexists. split; [reflexivity|reflexivity].
Qed.

(** C10, as the code has it.  On a populated engine, whether the
    coefficient expression evaluates or numpy refuses it, the adjoint
    reconstruction leaves the stored singular values squeezed and the direct
    one leaves them as they were; neither changes the Hankel matrix or the
    singular vectors.  The squeezed values are the same entries in the same
    order; they are a flat sequence of length [n] when the values were a row,
    a column or a flat sequence of [n <> 1] entries, and a 0-d array when
    every axis of the values had length one. *)
Theorem compute_modes_frame (side : Side) (b : BPOD S)
    (lg : list (event S)) (modeNumList : list Z) (modePath : Path)
    (indexFrom : Z) (arg : option (list Path)) (V sigma : ndarray S) :
  singVecs_of side b = Some V -> singVals b = Some sigma ->
  exists r b' lg',
    compute_modes_of side modeNumList modePath indexFrom arg (mk_St b lg) =
      Done (r, mk_St b' lg') /\
    singVals b' =
      Some (match side with Direct => sigma | Adjoint => squeeze sigma end) /\
    hankelMat b' = hankelMat b /\
    LSingVecs b' = LSingVecs b /\
    RSingVecs b' = RSingVecs b /\
    data (squeeze sigma) = data sigma /\
    (forall n, n <> 1 ->
       shape sigma = [n] \/ shape sigma = [1; n] \/ shape sigma = [n; 1] ->
       shape (squeeze sigma) = [n]) /\
    (Forall (fun d => d = 1) (shape sigma) -> shape (squeeze sigma) = []).
Proof.
  intros HV Hs.
  destruct (@compute_modes_of_run side b lg modeNumList modePath indexFrom
              arg V sigma HV Hs) as (b' & Hsg & HH & HL & HR & _ & Hrun).
  assert (Hflat : forall n, n <> 1 ->
            shape sigma = [n] \/ shape sigma = [1; n] \/ shape sigma = [n; 1] ->
            shape (squeeze sigma) = [n]).
  { intros n Hn Hsh. exact (squeeze_vector sigma Hn Hsh). }
  pose proof (squeeze_all_units sigma) as Hunits.
  destruct (buildCoeffMat_of V (sigma_used side sigma)) as [C|e].
  - exists (Ok tt), b'. eexists. split; [exact Hrun|].
    destruct side; repeat split; auto.
  - exists (Err e), b', lg. split; [exact Hrun|].
    destruct side; repeat split; auto.
Qed.

End Modes.

(** ** Saving the decomposition *)

Section Save.
Context {S : Type} {ops : ScalarOps S} {col : Collaborators S}.

Lemma In_write_of (sv sv' : MatSaver) (m m' : option (ndarray S))
    (path : option Path) (p : Path) :
  In (EvSaveMat sv' m' p) (write_of sv m path) <->
  sv' = sv /\ path = Some p /\ m' = m.
Proof.
  unfold write_of. destruct path as [q|]; simpl.
  - split.
    + intros [Heq|[]]. inversion Heq. auto.
    + intros (-> & Hq & ->). inversion Hq. auto.
  - split; [intros [] | intros (_ & Hq & _); discriminate].
Qed.

Lemma In_writes_of (sv sv' : MatSaver) (b : BPOD S)
    (hp lp sp rp : option Path) (m : option (ndarray S)) (p : Path) :
  In (EvSaveMat sv' m p) (writes_of sv b hp lp sp rp) <->
  sv' = sv /\
  ((hp = Some p /\ m = hankelMat b) \/ (lp = Some p /\ m = LSingVecs b) \/
   (rp = Some p /\ m = RSingVecs b) \/ (sp = Some p /\ m = singVals b)).
Proof.
  unfold writes_of. rewrite !in_app_iff, !In_write_of. tauto.
Qed.

Lemma writes_of_are_writes (sv : MatSaver) (b : BPOD S)
    (hp lp sp rp : option Path) (e : event S) :
  In e (writes_of sv b hp lp sp rp) -> exists m p, e = EvSaveMat sv m p.
Proof.
  unfold writes_of, write_of. rewrite !in_app_iff.
  destruct hp, lp, sp, rp; simpl; intuition (subst; eauto).
Qed.

(** The run of [save_decomp], by rank and by whether a saver is set. *)
Lemma save_decomp_run (b : BPOD S) (lg : list (event S))
    (hp lp sp rp : option Path) :
  save_decomp hp lp sp rp (mk_St b lg) =
    match save_mat b, isRankZero (mpi b) with
    | Some sv, true =>
        Done (Ok tt, mk_St b (lg ++ writes_of sv b hp lp sp rp))
    | None, true =>
        Done (Err (UndefinedError "save_mat is undefined, cant save"),
              mk_St b lg)
    | _, false => Done (Ok tt, mk_St b lg)
    end.
Proof.
  destruct b as [sv ld mp dp ap L sg R H].
  destruct sv as [sv|]; destruct (isRankZero mp) eqn:Hrk;
    unfold save_decomp, writes_of, write_of; run_py; rewrite ?Hrk;
    try reflexivity.
  destruct hp, lp, sp, rp; run_py;
    rewrite <- ?app_assoc, ?app_nil_r; reflexivity.
Qed.

(** [save_decomp] ends without a broadcast, leaves the instance as it was
    and only adds to the trace. *)
Lemma save_decomp_done (b : BPOD S) (lg : list (event S))
    (hp lp sp rp : option Path) :
  exists r ws, save_decomp hp lp sp rp (mk_St b lg) =
                 Done (r, mk_St b (lg ++ ws)).
Proof.
  rewrite save_decomp_run.
  destruct (save_mat b) as [sv|]; destruct (isRankZero (mpi b)).
  - eauto.
  - exists (Ok tt), []. rewrite app_nil_r. reflexivity.
  - eexists _, []. rewrite app_nil_r. reflexivity.
  - exists (Ok tt), []. rewrite app_nil_r. reflexivity.
Qed.

(** C7. [save_decomp] leaves the instance as it was and adds only writes
    to the trace; an artifact is written to a path exactly when the worker
    is the coordinator, a saver is set, and the path is the one given for
    that artifact.  So each of the four is written or skipped by its own
    path, and a worker that is not the coordinator writes nothing. *)
Theorem save_decomp_writes (b : BPOD S) (lg : list (event S))
    (hp lp sp rp : option Path) :
  exists r ws,
    save_decomp hp lp sp rp (mk_St b lg) = Done (r, mk_St b (lg ++ ws)) /\
    (forall e, In e ws -> exists sv m p, e = EvSaveMat sv m p) /\
    (forall sv m p,
       In (EvSaveMat sv m p) ws <->
       isRankZero (mpi b) = true /\ save_mat b = Some sv /\
       ((hp = Some p /\ m = hankelMat b) \/
        (lp = Some p /\ m = LSingVecs b) \/
        (rp = Some p /\ m = RSingVecs b) \/
        (sp = Some p /\ m = singVals b))).
Proof.
  rewrite save_decomp_run.
  destruct (save_mat b) as [sv|]; destruct (isRankZero (mpi b)).
  - exists (Ok tt), (writes_of sv b hp lp sp rp).
    split; [reflexivity|]. split.
    + intros e He. exists sv. eapply writes_of_are_writes; eassumption.
    + intros sv' m p. rewrite In_writes_of. split.
      * intros (-> & Hw). auto.
      * intros (_ & Hsv & Hw). inversion Hsv. auto.
  - exists (Ok tt), []. rewrite app_nil_r. split; [reflexivity|].
    split; [intros e []|]. intros sv' m p. simpl.
    split; [intros [] | intros (Hr & _); discriminate].
  - eexists _, []. rewrite app_nil_r. split; [reflexivity|].
    split; [intros e []|]. intros sv' m p. simpl.
    split; [intros [] | intros (_ & Hsv & _); discriminate].
  - exists (Ok tt), []. rewrite app_nil_r. split; [reflexivity|].
    split; [intros e []|]. intros sv' m p. simpl.
    split; [intros [] | intros (Hr & _); discriminate].
Qed.

(** C9, as the code has it.  With no saver set, [save_decomp] raises
    [util.UndefinedError] on the coordinator, before anything is written;
    on any other worker it returns normally and does nothing. *)
Theorem save_decomp_no_saver (b : BPOD S) (lg : list (event S))
    (hp lp sp rp : option Path) :
  save_mat b = None ->
  if isRankZero (mpi b)
  then fails_undefined_first (mk_St b lg)
         (save_decomp hp lp sp rp (mk_St b lg))
  else save_decomp hp lp sp rp (mk_St b lg) = Done (Ok tt, mk_St b lg).
Proof.
  intros Hsv. rewrite save_decomp_run, Hsv.
  destruct (isRankZero (mpi b)); [|reflexivity].
  eexists _, b. simpl. auto.
Qed.

End Save.

(** ** Worlds of workers *)

Section WorldFacts.
Context {S X : Type}.

Lemma all_done_spec (ps : list (Proc S X)) (xs : list X) :
  all_done ps = Some xs <-> Forall2 (fun p x => p = Done x) ps xs.
Proof.
  revert xs. induction ps as [|p ps IH]; intros xs; simpl.
  - split.
    + intros Heq. inversion Heq. constructor.
    + intros HF. inversion HF. reflexivity.
  - destruct p as [x|v k].
    + destruct (all_done ps) as [ys|] eqn:Hys; simpl.
      * split.
        -- intros Heq. inversion Heq. constructor; [reflexivity|].
           apply IH. reflexivity.
        -- intros HF. inversion HF as [|? y ? ys' Hxy Hrest]; subst.
           inversion Hxy; subst. apply IH in Hrest.
           inversion Hrest. reflexivity.
      * split; [discriminate|].
        intros HF. inversion HF as [|? y ? ys' Hxy Hrest]; subst.
        apply IH in Hrest. discriminate.
    + split; [discriminate|].
      intros HF. inversion HF as [|? y ? ys' Hxy Hrest]; subst. discriminate.
Qed.

Lemma all_recv_spec (v : option (ndarray S)) (ps qs : list (Proc S X)) :
  all_recv v ps = Some qs <->
  Forall2 (fun p q => exists w k, p = Bcast w k /\ q = k v) ps qs.
Proof.
  revert qs. induction ps as [|p ps IH]; intros qs; simpl.
  - split.
    + intros Heq. inversion Heq. constructor.
    + intros HF. inversion HF. reflexivity.
  - destruct p as [x|w k].
    + split; [discriminate|].
      intros HF. inversion HF as [|? q ? qs' (w' & k' & Hp & _) _]; subst.
      discriminate.
    + destruct (all_recv v ps) as [rs|] eqn:Hrs; simpl.
      * split.
        -- intros Heq. inversion Heq. constructor; [eauto|].
           apply IH. reflexivity.
        -- intros HF.
           inversion HF as [|? q ? qs' (w' & k' & Hp & Hq) Hrest]; subst.
           inversion Hp; subst. apply IH in Hrest.
           inversion Hrest. reflexivity.
      * split; [discriminate|].
        intros HF. inversion HF as [|? q ? qs' _ Hrest]; subst.
        apply IH in Hrest. discriminate.
Qed.

(** A world finishes exactly when every other worker enters as many
    broadcasts as the coordinator; the coordinator then ends as if alone and
    every other worker ends as the run that receives the coordinator's
    values. *)
Lemma run_world_spec (root : Proc S X) (others : list (Proc S X)) (x : X)
    (xs : list X) :
  run_world root others = Some (x, xs) <->
  x = run_alone root /\
  Forall2 (fun p y => run_recv (sent root) p = Some y) others xs.
Proof.
  revert others. induction root as [x0|v k IH]; intros others; simpl.
  - destruct (all_done others) as [ys|] eqn:Hys; simpl.
    + apply all_done_spec in Hys. split.
      * intros Heq. inversion Heq; subst. split; [reflexivity|].
        eapply Forall2_impl; [|exact Hys].
        intros p y ->. reflexivity.
      * intros (-> & HF).
        assert (Hxs : Forall2 (fun p y => p = Done y) others xs).
        { eapply Forall2_impl; [|exact HF].
          intros p y Hp. destruct p; simpl in Hp; [|discriminate].
          inversion Hp. reflexivity. }
        apply all_done_spec in Hxs. apply all_done_spec in Hys.
        congruence.
    + split; [discriminate|].
      intros (_ & HF).
      assert (Hxs : Forall2 (fun p y => p = Done y) others xs).
      { eapply Forall2_impl; [|exact HF].
        intros p y Hp. destruct p; simpl in Hp; [|discriminate].
        inversion Hp. reflexivity. }
      apply all_done_spec in Hxs. congruence.
  - destruct (all_recv v others) as [qs|] eqn:Hqs.
    + rewrite IH. apply all_recv_spec in Hqs. split.
      * intros (-> & HF). split; [reflexivity|].
        clear IH. revert xs HF.
        induction Hqs as [|p q ps qs' (w & k' & -> & ->) _ IHq];
          intros xs HF; inversion HF; subst; constructor; auto.
      * intros (-> & HF). split; [reflexivity|].
        clear IH. revert xs HF.
        induction Hqs as [|p q ps qs' (w & k' & -> & ->) _ IHq];
          intros xs HF; inversion HF; subst; constructor; auto.
    + split; [discriminate|].
      intros (_ & HF).
      assert (Hex : exists qs, all_recv v others = Some qs).
      { clear IH Hqs. induction HF as [|p y ps ys Hp _ IHF].
        - exists []. reflexivity.
        - destruct IHF as (qs & Hqs). destruct p as [x0|w k']; simpl in Hp.
          + discriminate.
          + simpl. rewrite Hqs. simpl. eauto. }
      destruct Hex as (qs & Hex). congruence.
Qed.

End WorldFacts.

(** ** Computing the decomposition *)

Section Decomp.
Context {S : Type} {ops : ScalarOps S} {col : Collaborators S}.

Arguments save_decomp : simpl never.

(** Path lists given as arguments are stored first; the rest of the method
    reads the attributes. *)
Lemma compute_decomp_args (b : BPOD S) (darg aarg : option (list Path)) :
  exists b',
    (forall lg hp lp sp rp,
       compute_decomp hp lp sp rp darg aarg (mk_St b lg) =
       compute_decomp hp lp sp rp None None (mk_St b' lg)) /\
    directSnapPaths b' = or_else darg (directSnapPaths b) /\
    adjointSnapPaths b' = or_else aarg (adjointSnapPaths b) /\
    save_mat b' = save_mat b /\ mpi b' = mpi b /\
    LSingVecs b' = LSingVecs b /\ singVals b' = singVals b /\
    RSingVecs b' = RSingVecs b /\ hankelMat b' = hankelMat b.
Proof.
  destruct b as [sv ld mp dp ap L sg R H].
  exists (mk_BPOD sv ld mp (or_else darg dp) (or_else aarg ap) L sg R H).
  split; [|simpl; repeat split].
  intros lg hp lp sp rp.
  destruct darg, aarg; reflexivity.
Qed.

(** The run of [compute_decomp] once both path lists are set: the builder
    is called on the adjoint and direct paths, the coordinator factors, a
    distributed run broadcasts the three factors, and [save_decomp] ends the
    method. *)
Lemma compute_decomp_run (b : BPOD S) (lg : list (event S))
    (hp lp sp rp : option Path) (d a : list Path) :
  directSnapPaths b = Some d -> adjointSnapPaths b = Some a ->
  let h := compute_inner_product_matrix a d in
  compute_decomp hp lp sp rp None None (mk_St b lg) =
    if parallel (mpi b) then
      Bcast (LSingVecs (factored h b)) (fun l =>
      Bcast (singVals (factored h b)) (fun s =>
      Bcast (RSingVecs (factored h b)) (fun r =>
        save_decomp hp lp sp rp
          (mk_St (received l s r (factored h b)) (factored_log a d h b lg)))))
    else
      save_decomp hp lp sp rp
        (mk_St (factored h b) (factored_log a d h b lg)).
Proof.
  intros Hd Ha h. subst h.
  destruct b as [sv ld mp dp ap L sg R H]. simpl in Hd, Ha. subst.
  unfold compute_decomp, factored, factored_log. run_py.
  destruct (isRankZero mp) eqn:Hrk; destruct (parallel mp) eqn:Hpar;
    unfold isParallel; rewrite ?Hpar; run_py; reflexivity.
Qed.

Lemma hankelMat_received (l s r : option (ndarray S)) (h : ndarray S)
    (b : BPOD S) :
  hankelMat (received l s r (factored h b)) = Some h /\
  hankelMat (factored h b) = Some h.
Proof.
  unfold received, factored. destruct (isRankZero (mpi b)); split; reflexivity.
Qed.

Lemma factored_log_prefix (a d : list Path) (h : ndarray S) (b : BPOD S)
    (lg ws : list (event S)) :
  exists rest,
    factored_log a d h b lg ++ ws = lg ++ EvInnerProductMatrix a d :: rest.
Proof.
  unfold factored_log. destruct (isRankZero (mpi b)).
  - exists (EvSvd h :: ws). rewrite <- !app_assoc. reflexivity.
  - exists ws. rewrite <- app_assoc. reflexivity.
Qed.

(** Whatever the broadcasts return and however the final save ends, the
    Hankel matrix stored by [compute_decomp] is the builder's result for the
    adjoint paths as rows and the direct paths as columns, and that call is
    the first the method makes. *)
Lemma compute_decomp_builds_hankel (b : BPOD S) (lg : list (event S))
    (hp lp sp rp : option Path) (darg aarg : option (list Path))
    (d a : list Path) :
  or_else darg (directSnapPaths b) = Some d ->
  or_else aarg (adjointSnapPaths b) = Some a ->
  always
    (fun out =>
       hankelMat (self (snd out)) = Some (compute_inner_product_matrix a d) /\
       exists rest, log (snd out) = lg ++ EvInnerProductMatrix a d :: rest)
    (compute_decomp hp lp sp rp darg aarg (mk_St b lg)).
Proof.
  intros Hd Ha.
  destruct (compute_decomp_args b darg aarg)
    as (b' & Hrun & Hd' & Ha' & _).
  rewrite Hrun. rewrite Hd in Hd'. rewrite Ha in Ha'.
  rewrite (compute_decomp_run b' lg hp lp sp rp Hd' Ha').
  set (h := compute_inner_product_matrix a d).
  destruct (parallel (mpi b')); simpl.
  - intros l s r.
    destruct (save_decomp_done (received l s r (factored h b'))
                (factored_log a d h b' lg) hp lp sp rp) as (r0 & ws & ->).
    simpl. split; [apply (proj1 (hankelMat_received l s r h b'))
                  |apply factored_log_prefix].
  - destruct (save_decomp_done (factored h b')
                (factored_log a d h b' lg) hp lp sp rp) as (r0 & ws & ->).
    simpl. split; [apply (proj2 (hankelMat_received None None None h b'))
                  |apply factored_log_prefix].
Qed.

(** C5, as the code has it.  When a path list is [None] at call time, the
    argument and the attribute both, [compute_decomp] raises
    [util.UndefinedError] before the inner-product matrix builder is called
    and before any broadcast. *)
Theorem compute_decomp_unset_paths (b : BPOD S) (lg : list (event S))
    (hp lp sp rp : option Path) (darg aarg : option (list Path)) :
  or_else darg (directSnapPaths b) = None \/
  or_else aarg (adjointSnapPaths b) = None ->
  fails_undefined_first (mk_St b lg)
    (compute_decomp hp lp sp rp darg aarg (mk_St b lg)).
Proof.
  intros Hun. destruct b as [sv ld mp dp ap L sg R H].
  unfold fails_undefined_first, compute_decomp.
  destruct darg as [d|]; destruct aarg as [a|]; simpl in Hun;
    try (destruct Hun; discriminate).
  - destruct Hun as [Hun|Hun]; [discriminate|]. subst ap.
    run_py. eexists _, _. split; [reflexivity|]. simpl. auto.
  - destruct Hun as [Hun|Hun]; [|discriminate]. subst dp.
    run_py. eexists _, _. split; [reflexivity|]. simpl. auto.
  - destruct dp as [d|].
    + destruct Hun as [Hun|Hun]; [discriminate|]. subst ap.
      run_py. eexists _, _. split; [reflexivity|]. simpl. auto.
    + run_py. eexists _, _. split; [reflexivity|]. simpl. auto.
Qed.

(** The coordinator's run of [compute_decomp]: the stored factors are the
    ones the factorisation routine returned for the Hankel matrix, none of
    them reshaped. *)
Lemma compute_decomp_coordinator (b : BPOD S) (lg : list (event S))
    (hp lp sp rp : option Path) (darg aarg : option (list Path))
    (d a : list Path) :
  isRankZero (mpi b) = true ->
  or_else darg (directSnapPaths b) = Some d ->
  or_else aarg (adjointSnapPaths b) = Some a ->
  let h := compute_inner_product_matrix a d in
  exists r b' lg',
    run_alone (compute_decomp hp lp sp rp darg aarg (mk_St b lg)) =
      (r, mk_St b' lg') /\
    hankelMat b' = Some h /\
    LSingVecs b' = Some (fst (fst (svd h))) /\
    singVals b' = Some (snd (fst (svd h))) /\
    RSingVecs b' = Some (snd (svd h)).
Proof.
  intros Hrk Hd Ha h.
  destruct (compute_decomp_args b darg aarg)
    as (b' & Hrun & Hd' & Ha' & _ & Hmpi & _).
  rewrite Hrun. rewrite Hd in Hd'. rewrite Ha in Ha'.
  rewrite (compute_decomp_run b' lg hp lp sp rp Hd' Ha'). fold h.
  rewrite <- Hmpi in Hrk.
  destruct (parallel (mpi b')); simpl.
  - destruct (save_decomp_done
                (received (LSingVecs (factored h b')) (singVals (factored h b'))
                   (RSingVecs (factored h b')) (factored h b'))
                (factored_log a d h b' lg) hp lp sp rp) as (r0 & ws & ->).
    simpl. eexists _, _, _. split; [reflexivity|].
    unfold received, factored. rewrite Hrk. simpl. auto.
  - destruct (save_decomp_done (factored h b')
                (factored_log a d h b' lg) hp lp sp rp) as (r0 & ws & ->).
    simpl. eexists _, _, _. split; [reflexivity|].
    unfold factored. rewrite Hrk. simpl. auto.
Qed.

End Decomp.

(** ** The Hankel matrix *)

Section Hankel.
Context {S Field : Type} {ops : ScalarOps S}.
Variable load_field : Path -> Field.
Variable inner_product : Field -> Field -> S.
Variable svd0 : ndarray S -> ndarray S * ndarray S * ndarray S.

Lemma inner_product_matrix_entries (rows cols : list Path) (i j : nat) :
  i < length rows -> j < length cols ->
  get2 (inner_product_matrix load_field inner_product rows cols) i j =
    inner_product (load_field (nth i rows EmptyString))
      (load_field (nth j cols EmptyString)).
Proof.
  intros Hi Hj. unfold get2, entry, inner_product_matrix. simpl.
  rewrite (nth_flat_map_rows
             (fun r =>
                map (fun c => inner_product (load_field r) (load_field c))
                  cols)
             EmptyString szero rows (c := length cols)).
  - set (r := nth i rows EmptyString).
    rewrite (nth_indep _ szero
               (inner_product (load_field r) (load_field EmptyString)))
      by (rewrite length_map; exact Hj).
    apply (map_nth (fun c => inner_product (load_field r) (load_field c))).
  - intros x. apply length_map.
  - exact Hi.
  - exact Hj.
Qed.

(** C1. With the direct paths [d] and the adjoint paths [a] in force,
    [compute_decomp] first calls the inner-product matrix builder with [a]
    for the rows and [d] for the columns and stores what it returns as the
    Hankel matrix, on every worker and whatever happens afterwards; with the
    builder of the specification that matrix has [length a] rows and
    [length d] columns and its entry [(i, j)] is the inner product of adjoint
    snapshot [i] with direct snapshot [j]. *)
Theorem compute_decomp_hankel (b : BPOD S) (lg : list (event S))
    (hp lp sp rp : option Path) (darg aarg : option (list Path))
    (d a : list Path) :
  or_else darg (directSnapPaths b) = Some d ->
  or_else aarg (adjointSnapPaths b) = Some a ->
  let col := builder_collaborators load_field inner_product svd0 in
  let H := inner_product_matrix load_field inner_product a d in
  shape H = [length a; length d] /\
  (forall i j, i < length a -> j < length d ->
     get2 H i j =
       inner_product (load_field (nth i a EmptyString))
         (load_field (nth j d EmptyString))) /\
  always
    (fun out =>
       hankelMat (self (snd out)) = Some H /\
       exists rest, log (snd out) = lg ++ EvInnerProductMatrix a d :: rest)
    (compute_decomp hp lp sp rp darg aarg (mk_St b lg)).
Proof.
  intros Hd Ha col H. split; [reflexivity|]. split.
  - intros i j Hi Hj. apply inner_product_matrix_entries; assumption.
  - apply (@compute_decomp_builds_hankel S col b lg hp lp sp rp darg aarg d a
             Hd Ha).
Qed.

End Hankel.

(** ** Loading the decomposition *)

Section Load.
Context {S : Type} {ops : ScalarOps S} {col : Collaborators S}.

(** The run of [load_decomp] with the loader [ld] in force: the coordinator
    calls it on the three paths as they are, a distributed run then
    broadcasts, the third time again from [LSingVecs]. *)
Lemma load_decomp_run (b : BPOD S) (lg : list (event S))
    (hp lp sp rp : option Path) (larg : option (MatLoader S))
    (ld : MatLoader S) :
  or_else larg (load_mat b) = Some ld ->
  let b0 := set_load_mat (Some ld) b in
  let b1 := loaded ld lp sp rp b0 in
  let lg1 := loaded_log lp sp rp b0 lg in
  load_decomp hp lp sp rp larg (mk_St b lg) =
    if parallel (mpi b) then
      Bcast (LSingVecs b1) (fun l =>
      Bcast (singVals b1) (fun s =>
      Bcast l (fun r =>
        Done (Ok tt, mk_St (received l s r b1) lg1))))
    else Done (Ok tt, mk_St b1 lg1).
Proof.
  intros Hld. destruct b as [sv ldb mp dp ap L sg R H]. simpl in Hld.
  unfold load_decomp, loaded, loaded_log.
  destruct larg as [f|]; simpl in Hld.
  - inversion Hld; subst f. run_py.
    destruct (isRankZero mp) eqn:Hrk; destruct (parallel mp) eqn:Hpar;
      run_py; rewrite ?Hrk; reflexivity.
  - subst ldb. run_py.
    destruct (isRankZero mp) eqn:Hrk; destruct (parallel mp) eqn:Hpar;
      run_py; rewrite ?Hrk; reflexivity.
Qed.

(** The coordinator's run of [load_decomp]: the three loads, then, in a
    distributed run, its own values back from the broadcasts. *)
Lemma load_decomp_rank_zero (b : BPOD S) (lg : list (event S))
    (hp lp sp rp : option Path) (larg : option (MatLoader S))
    (ld : MatLoader S) :
  isRankZero (mpi b) = true ->
  or_else larg (load_mat b) = Some ld ->
  let b1 := loaded ld lp sp rp (set_load_mat (Some ld) b) in
  run_alone (load_decomp hp lp sp rp larg (mk_St b lg)) =
    (Ok tt,
     mk_St
       (if parallel (mpi b)
        then received (LSingVecs b1) (singVals b1) (LSingVecs b1) b1
        else b1)
       (lg ++ [EvLoadMat lp; EvLoadMat sp; EvLoadMat rp])).
Proof.
  intros Hrk Hld b1. subst b1.
  rewrite (load_decomp_run b lg hp lp sp rp larg Hld).
  unfold loaded_log. simpl. rewrite Hrk. rewrite <- !app_assoc. simpl.
  destruct (parallel (mpi b)); reflexivity.
Qed.

(** C6, as the code has it.  On the coordinator, with a loader in force,
    [load_decomp] calls the loader on the paths given for the left vectors,
    the singular values and the right vectors, in that order and whether or
    not a path is set; it stores the left vectors as returned and the
    singular values squeezed, and in a serial run the right vectors as
    returned.  The path given for the Hankel matrix is not used and the
    stored Hankel matrix is left as it was. *)
Theorem load_decomp_coordinator (b : BPOD S) (lg : list (event S))
    (hp lp sp rp : option Path) (larg : option (MatLoader S))
    (ld : MatLoader S) :
  isRankZero (mpi b) = true ->
  or_else larg (load_mat b) = Some ld ->
  exists b',
    run_alone (load_decomp hp lp sp rp larg (mk_St b lg)) =
      (Ok tt, mk_St b' (lg ++ [EvLoadMat lp; EvLoadMat sp; EvLoadMat rp])) /\
    LSingVecs b' = Some (ld lp) /\
    singVals b' = Some (squeeze (ld sp)) /\
    (parallel (mpi b) = false -> RSingVecs b' = Some (ld rp)) /\
    hankelMat b' = hankelMat b.
Proof.
  intros Hrk Hld.
  pose proof (load_decomp_rank_zero b lg hp lp sp rp larg Hrk Hld) as Hrun.
  simpl in Hrun. eexists. split; [exact Hrun|].
  unfold loaded, received. simpl. rewrite Hrk.
  destruct (parallel (mpi b)); simpl.
  - repeat split; try reflexivity. discriminate.
  - repeat split; reflexivity.
Qed.

(** C8, as the code has it.  On the coordinator, [load_decomp] stores the
    loaded singular values with the axes of length one removed, entries and
    order kept: a flat sequence when they were persisted as a row, a column
    or a flat sequence of [n <> 1] values, a 0-d array when every axis of the
    persisted form has length one.  [compute_decomp] stores the singular
    values exactly as the factorisation routine returned them. *)
Theorem singVals_stored (b : BPOD S) (lg : list (event S))
    (hp lp sp rp : option Path) :
  isRankZero (mpi b) = true ->
  (forall larg ld,
     or_else larg (load_mat b) = Some ld ->
     exists r b' lg',
       run_alone (load_decomp hp lp sp rp larg (mk_St b lg)) =
         (r, mk_St b' lg') /\
       singVals b' = Some (squeeze (ld sp)) /\
       data (squeeze (ld sp)) = data (ld sp) /\
       (forall n, n <> 1 ->
          shape (ld sp) = [n] \/ shape (ld sp) = [1; n] \/
          shape (ld sp) = [n; 1] ->
          shape (squeeze (ld sp)) = [n] /\ flat_singVals b') /\
       (Forall (fun d => d = 1) (shape (ld sp)) ->
          shape (squeeze (ld sp)) = [] /\ ~ flat_singVals b')) /\
  (forall darg aarg d a,
     or_else darg (directSnapPaths b) = Some d ->
     or_else aarg (adjointSnapPaths b) = Some a ->
     exists r b' lg',
       run_alone (compute_decomp hp lp sp rp darg aarg (mk_St b lg)) =
         (r, mk_St b' lg') /\
       singVals b' =
         Some (snd (fst (svd (compute_inner_product_matrix a d))))).
Proof.
  intros Hrk. split.
  - intros larg ld Hld.
    pose proof (load_decomp_rank_zero b lg hp lp sp rp larg Hrk Hld) as Hrun.
    simpl in Hrun. eexists _, _, _. split; [exact Hrun|].
    assert (Hsg :
      singVals
        (if parallel (mpi b)
         then received
                (LSingVecs (loaded ld lp sp rp (set_load_mat (Some ld) b)))
                (singVals (loaded ld lp sp rp (set_load_mat (Some ld) b)))
                (LSingVecs (loaded ld lp sp rp (set_load_mat (Some ld) b)))
                (loaded ld lp sp rp (set_load_mat (Some ld) b))
         else loaded ld lp sp rp (set_load_mat (Some ld) b)) =
      Some (squeeze (ld sp))).
    { unfold loaded, received. simpl. rewrite Hrk.
      destruct (parallel (mpi b)); reflexivity. }
    split; [exact Hsg|]. split; [reflexivity|]. split.
    + intros n Hn Hsh. pose proof (squeeze_vector (ld sp) Hn Hsh) as Hsq.
      split; [exact Hsq|]. exists (squeeze (ld sp)).
      split; [exact Hsg|]. unfold ndim. rewrite Hsq. reflexivity.
    + intros Hall. pose proof (squeeze_all_units (ld sp) Hall) as Hsq.
      split; [exact Hsq|]. intros (sigma & Hsigma & Hdim).
      rewrite Hsg in Hsigma. inversion Hsigma; subst sigma.
      unfold ndim in Hdim. rewrite Hsq in Hdim. discriminate.
  - intros darg aarg d a Hd Ha.
    destruct (compute_decomp_coordinator b lg hp lp sp rp darg aarg Hrk Hd Ha)
      as (r & b' & lg' & Hrun & _ & _ & Hsg & _).
    exists r, b', lg'. auto.
Qed.

End Load.

(** ** Distributed runs *)

Section Distributed.
Context {S : Type} {ops : ScalarOps S} {col : Collaborators S}.

Arguments save_decomp : simpl never.

Lemma Forall2_of_Forall_exists {A B : Type} (R : A -> B -> Prop)
    (l : list A) :
  Forall (fun a => exists y, R a y) l -> exists l', Forall2 R l l'.
Proof.
  induction 1 as [|a l (y & Hy) _ (l' & IH)].
  - exists []. constructor.
  - exists (y :: l'). constructor; assumption.
Qed.

Lemma Forall2_Forall_r {A B : Type} (R : A -> B -> Prop) (P : B -> Prop)
    (l : list A) (l' : list B) :
  Forall2 R l l' -> (forall a y, In a l -> R a y -> P y) -> Forall P l'.
Proof.
  induction 1 as [|a y l l' Hay _ IH]; intros HP.
  - constructor.
  - constructor.
    + apply (HP a y); [left; reflexivity|exact Hay].
    + apply IH. intros a' y' Hin. apply HP. right. exact Hin.
Qed.

(** What the coordinator offers at the three broadcasts of [load_decomp]:
    the left vectors, the singular values, and the left vectors again. *)
Lemma load_decomp_sent (b : BPOD S) (lg : list (event S))
    (hp lp sp rp : option Path) (larg : option (MatLoader S))
    (ld : MatLoader S) :
  isRankZero (mpi b) = true -> parallel (mpi b) = true ->
  or_else larg (load_mat b) = Some ld ->
  sent (load_decomp hp lp sp rp larg (mk_St b lg)) =
    [Some (ld lp); Some (squeeze (ld sp)); Some (ld lp)].
Proof.
  intros Hrk Hpar Hld. rewrite (load_decomp_run b lg hp lp sp rp larg Hld).
  rewrite Hpar. unfold loaded. simpl. rewrite Hrk. reflexivity.
Qed.

(** A worker of a distributed [load_decomp] ends holding the three values
    it received. *)
Lemma load_decomp_recv (b : BPOD S) (lg : list (event S))
    (hp lp sp rp : option Path) (larg : option (MatLoader S))
    (ld : MatLoader S) (l s r : option (ndarray S)) :
  parallel (mpi b) = true -> or_else larg (load_mat b) = Some ld ->
  exists b' lg',
    run_recv [l; s; r] (load_decomp hp lp sp rp larg (mk_St b lg)) =
      Some (Ok tt, mk_St b' lg') /\
    LSingVecs b' = l /\ singVals b' = s /\ RSingVecs b' = r.
Proof.
  intros Hpar Hld. rewrite (load_decomp_run b lg hp lp sp rp larg Hld).
  rewrite Hpar. simpl. eexists _, _. split; [reflexivity|].
  simpl. auto.
Qed.

(** C2, for [load_decomp], as the code has it.  In a distributed run where
    every worker has a loader, [load_decomp] ends on every worker and all of
    them hold the same three values: the left vectors and the squeezed
    singular values that the coordinator loaded, and, as right vectors, the
    left vectors once more; what the coordinator loaded from the path of the
    right vectors reaches no worker. *)
Theorem load_decomp_world (root : St S) (others : list (St S))
    (hp lp sp rp : option Path) (larg : option (MatLoader S))
    (ld : MatLoader S) :
  isRankZero (mpi (self root)) = true ->
  parallel (mpi (self root)) = true ->
  or_else larg (load_mat (self root)) = Some ld ->
  Forall (fun w => parallel (mpi (self w)) = true /\
                   exists f, or_else larg (load_mat (self w)) = Some f)
    others ->
  exists out outs,
    run_world (load_decomp hp lp sp rp larg root)
      (map (load_decomp hp lp sp rp larg) others) = Some (out, outs) /\
    Forall (fun o =>
              fst o = Ok tt /\
              LSingVecs (self (snd o)) = Some (ld lp) /\
              singVals (self (snd o)) = Some (squeeze (ld sp)) /\
              RSingVecs (self (snd o)) = Some (ld lp))
      (out :: outs).
Proof.
  intros Hrk Hpar Hld Hothers. destruct root as [b lg]. simpl in *.
  set (good := fun o : res unit * St S =>
                 fst o = Ok tt /\
                 LSingVecs (self (snd o)) = Some (ld lp) /\
                 singVals (self (snd o)) = Some (squeeze (ld sp)) /\
                 RSingVecs (self (snd o)) = Some (ld lp)).
  pose proof (load_decomp_sent b lg hp lp sp rp larg Hrk Hpar Hld) as Hsent.
  assert (Hevery : Forall
            (fun p => exists y,
               run_recv (sent (load_decomp hp lp sp rp larg (mk_St b lg))) p
                 = Some y /\ good y)
            (map (load_decomp hp lp sp rp larg) others)).
  { rewrite Hsent. apply Forall_map.
    eapply Forall_impl; [|exact Hothers].
    intros [bw lgw] (Hparw & f & Hf). simpl in *.
    destruct (load_decomp_recv bw lgw hp lp sp rp larg
                (Some (ld lp)) (Some (squeeze (ld sp))) (Some (ld lp))
                Hparw Hf) as (b' & lg' & Hrun & HL & Hs & HR).
    eexists. split; [exact Hrun|]. unfold good. simpl. auto. }
  apply Forall2_of_Forall_exists in Hevery. destruct Hevery as (outs & Houts).
  exists (run_alone (load_decomp hp lp sp rp larg (mk_St b lg))), outs.
  split.
  - apply run_world_spec. split; [reflexivity|].
    eapply Forall2_impl; [|exact Houts]. intros p y (Hy & _). exact Hy.
  - constructor.
    + destruct (load_decomp_recv b lg hp lp sp rp larg
                  (Some (ld lp)) (Some (squeeze (ld sp))) (Some (ld lp))
                  Hpar Hld) as (b' & lg' & Hrun & HL & Hs & HR).
      rewrite (load_decomp_run b lg hp lp sp rp larg Hld) in Hrun |- *.
      rewrite Hpar in Hrun |- *. unfold loaded in Hrun |- *.
      simpl in Hrun |- *. rewrite Hrk in Hrun |- *. simpl in Hrun |- *.
      inversion Hrun; subst. unfold good. simpl. auto.
    + eapply Forall2_Forall_r; [exact Houts|].
      intros p y _ (_ & Hgood). exact Hgood.
Qed.

(** What the coordinator offers at the three broadcasts of [compute_decomp]:
    the three factors, each from its own attribute. *)
Lemma compute_decomp_sent (b : BPOD S) (lg : list (event S))
    (hp lp sp rp : option Path) (darg aarg : option (list Path))
    (d a : list Path) :
  isRankZero (mpi b) = true -> parallel (mpi b) = true ->
  or_else darg (directSnapPaths b) = Some d ->
  or_else aarg (adjointSnapPaths b) = Some a ->
  let h := compute_inner_product_matrix a d in
  sent (compute_decomp hp lp sp rp darg aarg (mk_St b lg)) =
    [Some (fst (fst (svd h))); Some (snd (fst (svd h))); Some (snd (svd h))].
Proof.
  intros Hrk Hpar Hd Ha h.
  destruct (compute_decomp_args b darg aarg)
    as (b' & Hrun & Hd' & Ha' & _ & Hmpi & _).
  rewrite Hrun. rewrite Hd in Hd'. rewrite Ha in Ha'.
  rewrite (compute_decomp_run b' lg hp lp sp rp Hd' Ha'). fold h.
  rewrite <- Hmpi in Hrk, Hpar. rewrite Hpar. simpl.
  match goal with
  | |- context [save_decomp hp lp sp rp (mk_St ?x ?y)] =>
      destruct (save_decomp_done x y hp lp sp rp) as (r0 & ws & ->)
  end.
  unfold factored. rewrite Hrk. reflexivity.
Qed.

(** A worker of a distributed [compute_decomp] ends holding the three values
    it received. *)
Lemma compute_decomp_recv (b : BPOD S) (lg : list (event S))
    (hp lp sp rp : option Path) (darg aarg : option (list Path))
    (d a : list Path) (l s r : option (ndarray S)) :
  parallel (mpi b) = true ->
  or_else darg (directSnapPaths b) = Some d ->
  or_else aarg (adjointSnapPaths b) = Some a ->
  exists res b' lg',
    run_recv [l; s; r] (compute_decomp hp lp sp rp darg aarg (mk_St b lg)) =
      Some (res, mk_St b' lg') /\
    LSingVecs b' = l /\ singVals b' = s /\ RSingVecs b' = r.
Proof.
  intros Hpar Hd Ha.
  destruct (compute_decomp_args b darg aarg)
    as (b' & Hrun & Hd' & Ha' & _ & Hmpi & _).
  rewrite Hrun. rewrite Hd in Hd'. rewrite Ha in Ha'.
  rewrite (compute_decomp_run b' lg hp lp sp rp Hd' Ha').
  rewrite <- Hmpi in Hpar. rewrite Hpar. simpl.
  match goal with
  | |- context [save_decomp hp lp sp rp (mk_St ?x ?y)] =>
      destruct (save_decomp_done x y hp lp sp rp) as (r0 & ws & ->)
  end.
  eexists _, _, _. split; [reflexivity|]. simpl. auto.
Qed.

(** X7. In a distributed run where the path lists are set on every
    worker, [compute_decomp] ends on every worker and all of them hold the
    factors that the coordinator computed, each broadcast from its own
    attribute. *)
Lemma compute_decomp_world (root : St S) (others : list (St S))
    (hp lp sp rp : option Path) (darg aarg : option (list Path))
    (d a : list Path) :
  isRankZero (mpi (self root)) = true ->
  parallel (mpi (self root)) = true ->
  or_else darg (directSnapPaths (self root)) = Some d ->
  or_else aarg (adjointSnapPaths (self root)) = Some a ->
  Forall (fun w => parallel (mpi (self w)) = true /\
                   exists d' a',
                     or_else darg (directSnapPaths (self w)) = Some d' /\
                     or_else aarg (adjointSnapPaths (self w)) = Some a')
    others ->
  let h := compute_inner_product_matrix a d in
  exists out outs,
    run_world (compute_decomp hp lp sp rp darg aarg root)
      (map (compute_decomp hp lp sp rp darg aarg) others) = Some (out, outs) /\
    Forall (fun o =>
              LSingVecs (self (snd o)) = Some (fst (fst (svd h))) /\
              singVals (self (snd o)) = Some (snd (fst (svd h))) /\
              RSingVecs (self (snd o)) = Some (snd (svd h)))
      (out :: outs).
Proof.
  intros Hrk Hpar Hd Ha Hothers h. destruct root as [b lg]. simpl in *.
  set (good := fun o : res unit * St S =>
                 LSingVecs (self (snd o)) = Some (fst (fst (svd h))) /\
                 singVals (self (snd o)) = Some (snd (fst (svd h))) /\
                 RSingVecs (self (snd o)) = Some (snd (svd h))).
  pose proof (compute_decomp_sent b lg hp lp sp rp darg aarg Hrk Hpar Hd Ha)
    as Hsent. fold h in Hsent.
  assert (Hevery : Forall
            (fun p => exists y,
               run_recv
                 (sent (compute_decomp hp lp sp rp darg aarg (mk_St b lg))) p
                 = Some y /\ good y)
            (map (compute_decomp hp lp sp rp darg aarg) others)).
  { rewrite Hsent. apply Forall_map.
    eapply Forall_impl; [|exact Hothers].
    intros [bw lgw] (Hparw & d' & a' & Hd' & Ha'). simpl in *.
    destruct (compute_decomp_recv bw lgw hp lp sp rp darg aarg
                (Some (fst (fst (svd h)))) (Some (snd (fst (svd h))))
                (Some (snd (svd h))) Hparw Hd' Ha')
      as (res & b' & lg' & Hrun & HL & Hs & HR).
    eexists. split; [exact Hrun|]. unfold good. simpl. auto. }
  apply Forall2_of_Forall_exists in Hevery. destruct Hevery as (outs & Houts).
  exists (run_alone (compute_decomp hp lp sp rp darg aarg (mk_St b lg))), outs.
  split.
  - apply run_world_spec. split; [reflexivity|].
    eapply Forall2_impl; [|exact Houts]. intros p y (Hy & _). exact Hy.
  - constructor.
    + destruct (compute_decomp_coordinator b lg hp lp sp rp darg aarg
                  Hrk Hd Ha) as (r & b' & lg' & -> & _ & HL & Hs & HR).
      unfold good. simpl. auto.
    + eapply Forall2_Forall_r; [exact Houts|].
      intros p y _ (_ & Hgood). exact Hgood.
Qed.

End Distributed.

(** ** Worked examples *)

Section Worked.
Import Examples.

(** The example of the specification: two direct snapshots, three adjoint
    ones, and the dot product give the Hankel matrix
    [[1, 0], [0, 1], [1, 1]]. *)
Example hankel_of_three_by_two :
  hankelMat
    (self (snd (run_alone
      (@compute_decomp Sym flat_col None None None None
         (Some direct_paths) (Some adjoint_paths)
         (start (fresh 0 false (Some save_mat_text) None None)))))) =
  Some H_file.
Proof. vm_compute. reflexivity. Qed.

Lemma compute_decomp_hankel_witness :
  or_else (Some direct_paths)
    (directSnapPaths (fresh 0 false (Some save_mat_text) None None)) =
    Some direct_paths /\
  or_else (Some adjoint_paths)
    (adjointSnapPaths (fresh 0 false (Some save_mat_text) None None)) =
    Some adjoint_paths /\
  shape (inner_product_matrix load_field inner_product adjoint_paths
           direct_paths) = [3; 2] /\
  (forall i j, i < 3 -> j < 2 ->
     get2 (inner_product_matrix load_field inner_product adjoint_paths
             direct_paths) i j =
       inner_product (load_field (nth i adjoint_paths EmptyString))
         (load_field (nth j direct_paths EmptyString))) /\
  always
    (fun out =>
       hankelMat (self (snd out)) =
         Some (inner_product_matrix load_field inner_product adjoint_paths
                 direct_paths) /\
       exists rest,
         log (snd out) =
           [] ++ EvInnerProductMatrix adjoint_paths direct_paths :: rest)
    (@compute_decomp Sym flat_col default_hankelMatPath default_LSingVecsPath
       default_singValsPath default_RSingVecsPath
       (Some direct_paths) (Some adjoint_paths)
       (mk_St (fresh 0 false (Some save_mat_text) None None) [])).
Proof.
  split; [reflexivity|]. split; [reflexivity|].
  exact (@compute_decomp_hankel Sym Field Sym_ops load_field inner_product
           unit_factors (fresh 0 false (Some save_mat_text) None None) []
           default_hankelMatPath default_LSingVecsPath default_singValsPath
           default_RSingVecsPath (Some direct_paths) (Some adjoint_paths)
           direct_paths adjoint_paths eq_refl eq_refl).
Defined.

(** A distributed load on three workers: each ends with the left vectors
    in place of the right ones, which differ from them in the files. *)
Example load_decomp_three_workers :
  option_map
    (fun outs => map (fun o => RSingVecs (self (snd o))) (fst outs :: snd outs))
    (run_world
       (@load_decomp Sym (Some "H.txt"%string) (Some "L.txt"%string)
          (Some "S.txt"%string) (Some "R.txt"%string) None
          (start (fresh 0 true (Some save_mat_text) None None)))
       (map
          (@load_decomp Sym (Some "H.txt"%string) (Some "L.txt"%string)
             (Some "S.txt"%string) (Some "R.txt"%string) None)
          [start (fresh 1 true (Some save_mat_text) None None);
           start (fresh 2 true (Some save_mat_text) None None)])) =
    Some [Some L_file; Some L_file; Some L_file] /\
  loader (Some "R.txt"%string) = R_file /\ L_file <> R_file.
Proof.
  split; [vm_compute; reflexivity|].
  split; [reflexivity|discriminate].
Qed.

Lemma load_decomp_world_witness :
  isRankZero (mpi (self (start (fresh 0 true (Some save_mat_text) None None))))
    = true /\
  parallel (mpi (self (start (fresh 0 true (Some save_mat_text) None None))))
    = true /\
  or_else None
    (load_mat (self (start (fresh 0 true (Some save_mat_text) None None)))) =
    Some loader /\
  Forall (fun w => parallel (mpi (self w)) = true /\
                   exists f, or_else None (load_mat (self w)) = Some f)
    [start (fresh 1 true (Some save_mat_text) None None);
     start (fresh 2 true (Some save_mat_text) None None)] /\
  exists out outs,
    run_world
      (@load_decomp Sym (Some "H.txt"%string) (Some "L.txt"%string)
         (Some "S.txt"%string) (Some "R.txt"%string) None
         (start (fresh 0 true (Some save_mat_text) None None)))
      (map
         (@load_decomp Sym (Some "H.txt"%string) (Some "L.txt"%string)
            (Some "S.txt"%string) (Some "R.txt"%string) None)
         [start (fresh 1 true (Some save_mat_text) None None);
          start (fresh 2 true (Some save_mat_text) None None)]) =
      Some (out, outs) /\
    Forall (fun o =>
              fst o = Ok tt /\
              LSingVecs (self (snd o)) = Some (loader (Some "L.txt"%string)) /\
              singVals (self (snd o)) =
                Some (squeeze (loader (Some "S.txt"%string))) /\
              RSingVecs (self (snd o)) = Some (loader (Some "L.txt"%string)))
      (out :: outs).
Proof.
  assert (Hothers :
    Forall (fun w : St Sym => parallel (mpi (self w)) = true /\
                     exists f, or_else None (load_mat (self w)) = Some f)
      [start (fresh 1 true (Some save_mat_text) None None);
       start (fresh 2 true (Some save_mat_text) None None)]).
  { repeat constructor; exists loader; reflexivity. }
  split; [reflexivity|]. split; [reflexivity|]. split; [reflexivity|].
  split; [exact Hothers|].
  exact (@load_decomp_world Sym
           (start (fresh 0 true (Some save_mat_text) None None)) _
           (Some "H.txt"%string) (Some "L.txt"%string) (Some "S.txt"%string)
           (Some "R.txt"%string) None loader eq_refl eq_refl eq_refl Hothers).
Defined.


Lemma compute_modes_unpopulated_witness :
  (singVecs_of Adjoint (fresh 0 false (Some save_mat_text) None None) = None \/
   singVals (fresh 0 false (Some save_mat_text) None None) = None) /\
  exists e,
    @compute_modes_of Sym Sym_ops Adjoint [1]%Z "mode_%d.txt"%string 1%Z
      (Some adjoint_paths)
      (mk_St (fresh 0 false (Some save_mat_text) None None) []) =
      Done (Err e, mk_St (fresh 0 false (Some save_mat_text) None None) []) /\
    e = NameError "UndefinedError".
Proof.
  split; [left; reflexivity|].
  exact (@compute_modes_unpopulated Sym Sym_ops Adjoint
           (fresh 0 false (Some save_mat_text) None None) [] [1]%Z
           "mode_%d.txt"%string 1%Z (Some adjoint_paths)
           (or_introl eq_refl)).
Defined.

(** The same request of the direct modes raises [util.UndefinedError]. *)
Example compute_direct_modes_unpopulated :
  @compute_direct_modes Sym Sym_ops [1]%Z "mode_%d.txt"%string 1%Z
    (Some direct_paths)
    (start (fresh 0 false (Some save_mat_text) None None)) =
  Done (Err (UndefinedError "Must define self.RSingVecs"),
        start (fresh 0 false (Some save_mat_text) None None)).
Proof. vm_compute. reflexivity. Qed.

Lemma compute_decomp_unset_paths_witness :
  (or_else None
     (directSnapPaths (fresh 0 false (Some save_mat_text) None None)) = None \/
   or_else (Some adjoint_paths)
     (adjointSnapPaths (fresh 0 false (Some save_mat_text) None None)) =
     None) /\
  fails_undefined_first
    (mk_St (fresh 0 false (Some save_mat_text) None None) [])
    (@compute_decomp Sym flat_col default_hankelMatPath default_LSingVecsPath
       default_singValsPath default_RSingVecsPath None (Some adjoint_paths)
       (mk_St (fresh 0 false (Some save_mat_text) None None) [])).
Proof.
  split; [left; reflexivity|].
  exact (@compute_decomp_unset_paths Sym flat_col
           (fresh 0 false (Some save_mat_text) None None) []
           default_hankelMatPath default_LSingVecsPath default_singValsPath
           default_RSingVecsPath None (Some adjoint_paths)
           (or_introl eq_refl)).
Defined.

(** An empty list of direct paths passes the check of [compute_decomp]: the
    builder is called with it and the method returns normally. *)
Lemma compute_decomp_empty_paths_pass :
  fst (run_alone
         (@compute_decomp Sym flat_col default_hankelMatPath
            default_LSingVecsPath default_singValsPath default_RSingVecsPath
            (Some []) (Some adjoint_paths)
            (start (fresh 0 false (Some save_mat_text) None None)))) =
    Ok tt /\
  In (EvInnerProductMatrix adjoint_paths [])
    (log (snd (run_alone
                 (@compute_decomp Sym flat_col default_hankelMatPath
                    default_LSingVecsPath default_singValsPath
                    default_RSingVecsPath (Some []) (Some adjoint_paths)
                    (start (fresh 0 false (Some save_mat_text) None None)))))) /\
  ~ fails_undefined_first
      (start (fresh 0 false (Some save_mat_text) None None))
      (@compute_decomp Sym flat_col default_hankelMatPath
         default_LSingVecsPath default_singValsPath default_RSingVecsPath
         (Some []) (Some adjoint_paths)
         (start (fresh 0 false (Some save_mat_text) None None))).
Proof.
  split; [vm_compute; reflexivity|].
  split; [vm_compute; left; reflexivity|].
  intros (msg & b' & Heq & _). vm_compute in Heq. discriminate Heq.
Qed.

Lemma load_decomp_coordinator_witness :
  isRankZero (mpi (fresh 0 false (Some save_mat_text) None None)) = true /\
  or_else None (load_mat (fresh 0 false (Some save_mat_text) None None)) =
    Some loader /\
  exists b',
    run_alone
      (@load_decomp Sym (Some "H.txt"%string) None (Some "S.txt"%string)
         (Some "R.txt"%string) None
         (mk_St (fresh 0 false (Some save_mat_text) None None) [])) =
      (Ok tt,
       mk_St b'
         ([] ++ [EvLoadMat None; EvLoadMat (Some "S.txt"%string);
                 EvLoadMat (Some "R.txt"%string)])) /\
    LSingVecs b' = Some (loader None) /\
    singVals b' = Some (squeeze (loader (Some "S.txt"%string))) /\
    (parallel (mpi (fresh 0 false (Some save_mat_text) None None)) = false ->
     RSingVecs b' = Some (loader (Some "R.txt"%string))) /\
    hankelMat b' = hankelMat (fresh 0 false (Some save_mat_text) None None).
Proof.
  split; [reflexivity|]. split; [reflexivity|].
  exact (@load_decomp_coordinator Sym
           (fresh 0 false (Some save_mat_text) None None) []
           (Some "H.txt"%string) None (Some "S.txt"%string)
           (Some "R.txt"%string) None loader eq_refl eq_refl).
Defined.

(** A load with the path of the Hankel matrix given and the path of the
    left vectors unset: the Hankel matrix is not read, and the loader is
    called for the left vectors all the same. *)
Lemma load_decomp_not_as_specified :
  loader (Some "H.txt"%string) = H_file /\
  hankelMat
    (self (snd (run_alone
                  (@load_decomp Sym (Some "H.txt"%string) None
                     (Some "S.txt"%string) (Some "R.txt"%string) None
                     (start (fresh 0 false (Some save_mat_text) None None))))))
    = None /\
  In (EvLoadMat None)
    (log (snd (run_alone
                 (@load_decomp Sym (Some "H.txt"%string) None
                    (Some "S.txt"%string) (Some "R.txt"%string) None
                    (start (fresh 0 false (Some save_mat_text) None None))))))
  /\
  ~ load_as_specified loader (Some "H.txt"%string) None
      (Some "S.txt"%string) (Some "R.txt"%string)
      (start (fresh 0 false (Some save_mat_text) None None))
      (snd (run_alone
              (@load_decomp Sym (Some "H.txt"%string) None
                 (Some "S.txt"%string) (Some "R.txt"%string) None
                 (start (fresh 0 false (Some save_mat_text) None None))))).
Proof.
  split; [reflexivity|]. split; [vm_compute; reflexivity|].
  split; [vm_compute; left; reflexivity|].
  intros (HH & _). vm_compute in HH. discriminate HH.
Qed.

Lemma singVals_stored_witness :
  isRankZero (mpi (fresh 0 false (Some save_mat_text) None None)) = true /\
  or_else None (load_mat (fresh 0 false (Some save_mat_text) None None)) =
    Some loader /\
  or_else (Some direct_paths)
    (directSnapPaths (fresh 0 false (Some save_mat_text) None None)) =
    Some direct_paths /\
  or_else (Some adjoint_paths)
    (adjointSnapPaths (fresh 0 false (Some save_mat_text) None None)) =
    Some adjoint_paths /\
  (exists r b' lg',
     run_alone
       (@load_decomp Sym None (Some "L.txt"%string) (Some "S.txt"%string)
          (Some "R.txt"%string) None
          (mk_St (fresh 0 false (Some save_mat_text) None None) [])) =
       (r, mk_St b' lg') /\
     singVals b' = Some (squeeze (loader (Some "S.txt"%string))) /\
     data (squeeze (loader (Some "S.txt"%string))) =
       data (loader (Some "S.txt"%string)) /\
     (forall n, n <> 1 ->
        shape (loader (Some "S.txt"%string)) = [n] \/
        shape (loader (Some "S.txt"%string)) = [1; n] \/
        shape (loader (Some "S.txt"%string)) = [n; 1] ->
        shape (squeeze (loader (Some "S.txt"%string))) = [n] /\
        flat_singVals b') /\
     (Forall (fun d => d = 1) (shape (loader (Some "S.txt"%string))) ->
        shape (squeeze (loader (Some "S.txt"%string))) = [] /\
        ~ flat_singVals b')) /\
  (exists r b' lg',
     run_alone
       (@compute_decomp Sym flat_col None (Some "L.txt"%string)
          (Some "S.txt"%string) (Some "R.txt"%string)
          (Some direct_paths) (Some adjoint_paths)
          (mk_St (fresh 0 false (Some save_mat_text) None None) [])) =
       (r, mk_St b' lg') /\
     singVals b' =
       Some (snd (fst (@svd Sym flat_col
                         (@compute_inner_product_matrix Sym flat_col
                            adjoint_paths direct_paths))))).
Proof.
  split; [reflexivity|]. split; [reflexivity|]. split; [reflexivity|].
  split; [reflexivity|]. split.
  - exact (proj1
             (@singVals_stored Sym flat_col
                (fresh 0 false (Some save_mat_text) None None) [] None
                (Some "L.txt"%string) (Some "S.txt"%string)
                (Some "R.txt"%string) eq_refl)
             None loader eq_refl).
  - exact (proj2
             (@singVals_stored Sym flat_col
                (fresh 0 false (Some save_mat_text) None None) [] None
                (Some "L.txt"%string) (Some "S.txt"%string)
                (Some "R.txt"%string) eq_refl)
             (Some direct_paths) (Some adjoint_paths) direct_paths
             adjoint_paths eq_refl eq_refl).
Defined.

(** Where the singular values are not flat after the method: a lone
    singular value persisted as a 1 by 1 matrix is stored by [load_decomp] as
    a 0-d array, and a factorisation routine that returns the singular values
    as a matrix has them stored by [compute_decomp] as that matrix. *)
Lemma singVals_not_flat :
  ~ flat_singVals
      (self (snd (run_alone
                    (@load_decomp Sym None (Some "L.txt"%string)
                       (Some "S1.txt"%string) (Some "R.txt"%string) None
                       (start (fresh 0 false (Some save_mat_text) None
                                 None)))))) /\
  ~ flat_singVals
      (self (snd (run_alone
                    (@compute_decomp Sym matrix_col None None None None
                       (Some direct_paths) (Some adjoint_paths)
                       (start (fresh 0 false (Some save_mat_text) None
                                 None)))))).
Proof.
  split; intros (sigma & Hsigma & Hdim); vm_compute in Hsigma;
    inversion Hsigma; subst sigma; discriminate Hdim.
Qed.

Lemma save_decomp_no_saver_witness :
  save_mat (fresh 0 false None None None) = None /\
  fails_undefined_first (mk_St (fresh 0 false None None None) [])
    (@save_decomp Sym (Some "H.txt"%string) (Some "L.txt"%string)
       (Some "S.txt"%string) (Some "R.txt"%string)
       (mk_St (fresh 0 false None None None) [])).
Proof.
  split; [reflexivity|].
  exact (@save_decomp_no_saver Sym (fresh 0 false None None None) []
           (Some "H.txt"%string) (Some "L.txt"%string) (Some "S.txt"%string)
           (Some "R.txt"%string) eq_refl).
Defined.

(** With no saver set, a worker that is not the coordinator leaves
    [save_decomp] normally. *)
Lemma save_decomp_no_saver_other_rank :
  save_mat (fresh 1 true None None None) = None /\
  @save_decomp Sym (Some "H.txt"%string) (Some "L.txt"%string)
    (Some "S.txt"%string) (Some "R.txt"%string)
    (start (fresh 1 true None None None)) =
    Done (Ok tt, start (fresh 1 true None None None)) /\
  ~ fails_undefined_first (start (fresh 1 true None None None))
      (@save_decomp Sym (Some "H.txt"%string) (Some "L.txt"%string)
         (Some "S.txt"%string) (Some "R.txt"%string)
         (start (fresh 1 true None None None))).
Proof.
  split; [reflexivity|]. split; [vm_compute; reflexivity|].
  intros (msg & b' & Heq & _). vm_compute in Heq. discriminate Heq.
Qed.

Lemma compute_modes_frame_witness :
  singVecs_of Adjoint decomposed = Some L_file /\
  singVals decomposed = Some S_file /\
  exists r b' lg',
    @compute_modes_of Sym Sym_ops Adjoint [1; 2]%Z "mode_%d.txt"%string 1%Z
      None (mk_St decomposed []) = Done (r, mk_St b' lg') /\
    singVals b' = Some (squeeze S_file) /\
    hankelMat b' = hankelMat decomposed /\
    LSingVecs b' = LSingVecs decomposed /\
    RSingVecs b' = RSingVecs decomposed /\
    data (squeeze S_file) = data S_file /\
    (forall n, n <> 1 ->
       shape S_file = [n] \/ shape S_file = [1; n] \/ shape S_file = [n; 1] ->
       shape (squeeze S_file) = [n]) /\
    (Forall (fun d => d = 1) (shape S_file) -> shape (squeeze S_file) = []).
Proof.
  split; [reflexivity|]. split; [reflexivity|].
  exact (@compute_modes_frame Sym Sym_ops Adjoint decomposed [] [1; 2]%Z
           "mode_%d.txt"%string 1%Z None L_file S_file eq_refl eq_refl).
Defined.

(** A partial save: only the singular values. *)
Example save_decomp_singVals_only :
  @save_decomp Sym None None (Some "S.txt"%string) None (start decomposed) =
  Done (Ok tt,
        mk_St decomposed
          [EvSaveMat save_mat_text (Some S_file) "S.txt"%string]).
Proof. vm_compute. reflexivity. Qed.

(** A decomposition of one direct snapshot against three adjoint ones
    leaves the engine [single_value]. *)
Example compute_decomp_one_direct_snapshot :
  self after_one_direct = single_value.
Proof. vm_compute. reflexivity. Qed.


(** A flat sequence of one singular value is no longer flat once the
    adjoint reconstruction has squeezed it: it is stored as a 0-d array. *)
Lemma adjoint_modes_unflatten_single_value :
  flat_singVals single_value /\
  singVals
    (self (snd (run_alone
                  (@compute_adjoint_modes Sym Sym_ops [1]%Z
                     "mode_%d.txt"%string 1%Z None
                     (mk_St single_value []))))) =
    Some (mk_ndarray [] (lits [1]%Z)) /\
  ~ flat_singVals
      (self (snd (run_alone
                    (@compute_adjoint_modes Sym Sym_ops [1]%Z
                       "mode_%d.txt"%string 1%Z None
                       (mk_St single_value []))))).
Proof.
  split; [|split].
  - exists (mk_ndarray [1] (lits [1]%Z)). split; reflexivity.
  - vm_compute. reflexivity.
  - intros (sigma & Hsigma & Hdim). vm_compute in Hsigma.
    inversion Hsigma; subst sigma. discriminate Hdim.
Qed.

(** The direct modes of the engine with flat singular values [4, 9] and
    right vectors [[7, 8], [9, 10]]: one call to the builder, with the
    matrix whose column [j] is column [j] of the right vectors times
    [sigma[j] ** -0.5], the sums kept as numpy forms them. *)
Example direct_coefficients_of_files :
  log (snd (run_alone
              (@compute_direct_modes Sym Sym_ops [1]%Z "mode_%d.txt"%string
                 1%Z None (start decomposed_flat)))) =
  [EvComputeModes [1]%Z "mode_%d.txt"%string (Some direct_paths)
     (mk_ndarray [2; 2]
        [Add (Add (Lit 0) (Mul (Lit 7) (PowNegHalf (Lit 4))))
           (Mul (Lit 8) (Lit 0));
         Add (Add (Lit 0) (Mul (Lit 7) (Lit 0)))
           (Mul (Lit 8) (PowNegHalf (Lit 9)));
         Add (Add (Lit 0) (Mul (Lit 9) (PowNegHalf (Lit 4))))
           (Mul (Lit 10) (Lit 0));
         Add (Add (Lit 0) (Mul (Lit 9) (Lit 0)))
           (Mul (Lit 10) (PowNegHalf (Lit 9)))])
     1%Z].
Proof. vm_compute. reflexivity. Qed.

End Worked.

(** * Further properties of the methods *)

(** ** Loading: missing loader, kept loader, frame *)

Section LoadMore.
Context {S : Type}.

Lemma load_decomp_unloadable (w : St S) (hp lp sp rp : option Path) :
  load_mat (self w) = None ->
  load_decomp hp lp sp rp None w =
    Done (Err (NameError "UndefinedError"), w).
Proof.
  destruct w as [[sv ld mp dp ap L sg R H] lg]. simpl. intros ->.
  reflexivity.
Qed.

(** X1. With no loader, neither stored nor given, [load_decomp] stops on
    the check of [self.load_mat]: the unqualified [UndefinedError] of that
    line is unbound, so the exception is [NameError]; nothing is loaded,
    assigned or broadcast.  When no worker has a loader the whole world
    ends that way, each worker as it was. *)
Theorem load_decomp_no_loader (root : St S) (others : list (St S))
    (hp lp sp rp : option Path) :
  load_mat (self root) = None ->
  Forall (fun w => load_mat (self w) = None) others ->
  run_world (load_decomp hp lp sp rp None root)
    (map (load_decomp hp lp sp rp None) others) =
    Some ((Err (NameError "UndefinedError"), root),
          map (fun w => (Err (NameError "UndefinedError"), w)) others).
Proof.
  intros Hroot Hothers. rewrite (load_decomp_unloadable root hp lp sp rp Hroot).
  simpl.
  assert (Hdone :
    all_done (map (load_decomp hp lp sp rp None) others) =
    Some (map (fun w => (Err (NameError "UndefinedError") : res unit, w))
            others)).
  { induction Hothers as [|w ws Hw _ IH]; simpl.
    - reflexivity.
    - rewrite (load_decomp_unloadable w hp lp sp rp Hw). rewrite IH.
      reflexivity. }
  rewrite Hdone. reflexivity.
Qed.

(** X2. A loader given as argument is stored: a later [load_decomp] with
    no loader argument reads with it.  On the coordinator of a serial run
    the second load replaces the three stored matrices by what that loader
    returns for the new paths, the singular values squeezed. *)
Theorem load_decomp_keeps_loader (b : BPOD S) (lg : list (event S))
    (hp lp sp rp hp' lp' sp' rp' : option Path) (f : MatLoader S) :
  isRankZero (mpi b) = true -> parallel (mpi b) = false ->
  exists b2,
    run_alone
      (load_decomp hp' lp' sp' rp' None
         (snd (run_alone
                 (load_decomp hp lp sp rp (Some f) (mk_St b lg))))) =
      (Ok tt,
       mk_St b2
         (lg ++ [EvLoadMat lp; EvLoadMat sp; EvLoadMat rp;
                 EvLoadMat lp'; EvLoadMat sp'; EvLoadMat rp'])) /\
    load_mat b2 = Some f /\
    LSingVecs b2 = Some (f lp') /\
    singVals b2 = Some (squeeze (f sp')) /\
    RSingVecs b2 = Some (f rp').
Proof.
  intros Hrk Hpar.
  rewrite (load_decomp_rank_zero b lg hp lp sp rp (Some f) (ld := f)
             Hrk eq_refl).
  rewrite Hpar. simpl snd.
  set (b1 := loaded f lp sp rp (set_load_mat (Some f) b)).
  assert (Hrk1 : isRankZero (mpi b1) = true).
  { unfold b1, loaded. simpl. rewrite Hrk. simpl. exact Hrk. }
  assert (Hpar1 : parallel (mpi b1) = false).
  { unfold b1, loaded. simpl. rewrite Hrk. simpl. exact Hpar. }
  assert (Hld1 : or_else None (load_mat b1) = Some f).
  { unfold b1, loaded. simpl. rewrite Hrk. reflexivity. }
  rewrite (load_decomp_rank_zero b1 _ hp' lp' sp' rp' None Hrk1 Hld1).
  rewrite Hpar1. rewrite <- app_assoc. simpl.
  eexists. split; [reflexivity|].
  unfold loaded. simpl. rewrite Hrk1. simpl. auto.
Qed.

(** X13. Whatever the worker's rank, with or without a loader, and whatever
    the broadcasts return, [load_decomp] never changes the stored Hankel
    matrix, the two path lists, the saver or the runtime facade. *)
Theorem load_decomp_frame (b : BPOD S) (lg : list (event S))
    (hp lp sp rp : option Path) (larg : option (MatLoader S)) :
  always
    (fun out =>
       hankelMat (self (snd out)) = hankelMat b /\
       directSnapPaths (self (snd out)) = directSnapPaths b /\
       adjointSnapPaths (self (snd out)) = adjointSnapPaths b /\
       save_mat (self (snd out)) = save_mat b /\
       mpi (self (snd out)) = mpi b)
    (load_decomp hp lp sp rp larg (mk_St b lg)).
Proof.
  destruct (or_else larg (load_mat b)) as [ld|] eqn:Hld.
  - rewrite (load_decomp_run b lg hp lp sp rp larg Hld).
    unfold loaded, received.
    destruct (parallel (mpi b)); simpl.
    + intros l s r. simpl. destruct (isRankZero (mpi b)); simpl; auto.
    + destruct (isRankZero (mpi b)); simpl; auto.
  - destruct larg as [f|]; [discriminate|]. simpl in Hld.
    rewrite (load_decomp_unloadable (mk_St b lg) hp lp sp rp Hld).
    simpl. auto.
Qed.

End LoadMore.

(** ** Computing and saving: traces, late failure, kept arguments *)

Section DecompMore.
Context {S : Type} {col : Collaborators S}.

Arguments save_decomp : simpl never.

(** X3. A save that follows a load on the coordinator of a serial run
    writes back what the load read: the left and right vectors as loaded
    and the singular values squeezed.  For the Hankel matrix it passes the
    saver whatever was stored before the load, [None] on a fresh engine,
    the load not reading it. *)
Theorem save_after_load (b : BPOD S) (lg : list (event S))
    (hp lp sp rp hp' lp' sp' rp' : option Path)
    (larg : option (MatLoader S)) (ld : MatLoader S) (sv : MatSaver) :
  isRankZero (mpi b) = true -> parallel (mpi b) = false ->
  or_else larg (load_mat b) = Some ld -> save_mat b = Some sv ->
  exists b1,
    save_decomp hp' lp' sp' rp'
      (snd (run_alone (load_decomp hp lp sp rp larg (mk_St b lg)))) =
      Done (Ok tt,
            mk_St b1
              (lg ++ [EvLoadMat lp; EvLoadMat sp; EvLoadMat rp] ++
               write_of sv (hankelMat b) hp' ++
               write_of sv (Some (ld lp)) lp' ++
               write_of sv (Some (ld rp)) rp' ++
               write_of sv (Some (squeeze (ld sp))) sp')).
Proof.
  intros Hrk Hpar Hld Hsv.
  rewrite (load_decomp_rank_zero b lg hp lp sp rp larg Hrk Hld).
  rewrite Hpar. simpl snd. rewrite save_decomp_run.
  unfold loaded, writes_of. simpl. rewrite Hrk. simpl. rewrite Hsv, Hrk.
  rewrite <- app_assoc. eexists. reflexivity.
Qed.

(** The coordinator's run of [compute_decomp], the closing save included. *)
Lemma compute_decomp_rank_zero (b : BPOD S) (lg : list (event S))
    (hp lp sp rp : option Path) (darg aarg : option (list Path))
    (d a : list Path) :
  isRankZero (mpi b) = true ->
  or_else darg (directSnapPaths b) = Some d ->
  or_else aarg (adjointSnapPaths b) = Some a ->
  let h := compute_inner_product_matrix a d in
  exists b',
    run_alone (compute_decomp hp lp sp rp darg aarg (mk_St b lg)) =
      match save_mat b with
      | Some sv =>
          (Ok tt,
           mk_St b'
             (lg ++ [EvInnerProductMatrix a d; EvSvd h] ++
              writes_of sv b' hp lp sp rp))
      | None =>
          (Err (UndefinedError "save_mat is undefined, cant save"),
           mk_St b' (lg ++ [EvInnerProductMatrix a d; EvSvd h]))
      end /\
    hankelMat b' = Some h /\
    LSingVecs b' = Some (fst (fst (svd h))) /\
    singVals b' = Some (snd (fst (svd h))) /\
    RSingVecs b' = Some (snd (svd h)) /\
    directSnapPaths b' = Some d /\
    adjointSnapPaths b' = Some a.
Proof.
  intros Hrk Hd Ha h.
  destruct (compute_decomp_args b darg aarg)
    as (b0 & Hrun & Hd0 & Ha0 & Hsv0 & Hmpi & _).
  rewrite Hrun. rewrite Hd in Hd0. rewrite Ha in Ha0.
  rewrite (compute_decomp_run b0 lg hp lp sp rp Hd0 Ha0). fold h.
  rewrite <- Hmpi in Hrk. rewrite <- Hsv0.
  assert (Hlog : factored_log a d h b0 lg =
                 lg ++ [EvInnerProductMatrix a d; EvSvd h]).
  { unfold factored_log. rewrite Hrk. rewrite <- app_assoc. reflexivity. }
  exists (factored h b0).
  assert (Hsame :
    received (LSingVecs (factored h b0)) (singVals (factored h b0))
      (RSingVecs (factored h b0)) (factored h b0) = factored h b0).
  { unfold received, factored. rewrite Hrk.
    destruct b0; reflexivity. }
  assert (Hrun0 :
    run_alone
      (if parallel (mpi b0)
       then
         Bcast (LSingVecs (factored h b0)) (fun l =>
         Bcast (singVals (factored h b0)) (fun s =>
         Bcast (RSingVecs (factored h b0)) (fun r =>
           save_decomp hp lp sp rp
             (mk_St (received l s r (factored h b0))
                (factored_log a d h b0 lg)))))
       else
         save_decomp hp lp sp rp
           (mk_St (factored h b0) (factored_log a d h b0 lg))) =
    run_alone
      (save_decomp hp lp sp rp
         (mk_St (factored h b0) (factored_log a d h b0 lg)))).
  { destruct (parallel (mpi b0)); simpl; [rewrite Hsame|]; reflexivity. }
  rewrite Hrun0, save_decomp_run, Hlog.
  assert (Hsvf : save_mat (factored h b0) = save_mat b0).
  { unfold factored. rewrite Hrk. reflexivity. }
  assert (Hrkf : isRankZero (mpi (factored h b0)) = true).
  { unfold factored. rewrite Hrk. simpl. exact Hrk. }
  rewrite Hsvf, Hrkf. split.
  - destruct (save_mat b0); simpl; [rewrite <- app_assoc|]; reflexivity.
  - unfold factored. rewrite Hrk. simpl. repeat split; auto.
Qed.

(** X4. On a coordinator with a saver, [compute_decomp] returns normally
    whatever the broadcasts return; its calls are the builder on the adjoint
    and direct paths, the factorisation of the result, then the writes, and
    every artifact written is the one the instance holds when the method
    returns: the save comes after the broadcasts. *)
Theorem compute_decomp_writes_what_it_holds (b : BPOD S)
    (lg : list (event S)) (hp lp sp rp : option Path)
    (darg aarg : option (list Path)) (d a : list Path) (sv : MatSaver) :
  isRankZero (mpi b) = true -> save_mat b = Some sv ->
  or_else darg (directSnapPaths b) = Some d ->
  or_else aarg (adjointSnapPaths b) = Some a ->
  always
    (fun out =>
       fst out = Ok tt /\
       log (snd out) =
         lg ++ [EvInnerProductMatrix a d;
                EvSvd (compute_inner_product_matrix a d)] ++
         writes_of sv (self (snd out)) hp lp sp rp)
    (compute_decomp hp lp sp rp darg aarg (mk_St b lg)).
Proof.
  intros Hrk Hsv Hd Ha.
  destruct (compute_decomp_args b darg aarg)
    as (b0 & Hrun & Hd0 & Ha0 & Hsv0 & Hmpi & _).
  rewrite Hrun. rewrite Hd in Hd0. rewrite Ha in Ha0.
  rewrite (compute_decomp_run b0 lg hp lp sp rp Hd0 Ha0).
  set (h := compute_inner_product_matrix a d).
  rewrite <- Hmpi in Hrk. rewrite <- Hsv0 in Hsv.
  assert (Hlog : factored_log a d h b0 lg =
                 lg ++ [EvInnerProductMatrix a d; EvSvd h]).
  { unfold factored_log. rewrite Hrk. rewrite <- app_assoc. reflexivity. }
  assert (Hkeep : forall l s r,
            save_mat (received l s r (factored h b0)) = Some sv /\
            isRankZero (mpi (received l s r (factored h b0))) = true).
  { intros l s r. unfold received, factored. rewrite Hrk. simpl. auto. }
  assert (Hkeep0 : save_mat (factored h b0) = Some sv /\
                   isRankZero (mpi (factored h b0)) = true).
  { unfold factored. rewrite Hrk. simpl. auto. }
  destruct (parallel (mpi b0)); simpl.
  - intros l s r. rewrite save_decomp_run.
    destruct (Hkeep l s r) as (-> & ->). simpl. rewrite Hlog.
    rewrite <- app_assoc. auto.
  - rewrite save_decomp_run. destruct Hkeep0 as (-> & ->). simpl.
    rewrite Hlog. rewrite <- app_assoc. auto.
Qed.

(** X5. On a coordinator without a saver, [compute_decomp] raises
    [util.UndefinedError] only at its end: the builder and the
    factorisation have been called and the Hankel matrix and the three
    factors are stored when the exception leaves the method. *)
Theorem compute_decomp_no_saver (b : BPOD S) (lg : list (event S))
    (hp lp sp rp : option Path) (darg aarg : option (list Path))
    (d a : list Path) :
  isRankZero (mpi b) = true -> save_mat b = None ->
  or_else darg (directSnapPaths b) = Some d ->
  or_else aarg (adjointSnapPaths b) = Some a ->
  let h := compute_inner_product_matrix a d in
  exists b',
    run_alone (compute_decomp hp lp sp rp darg aarg (mk_St b lg)) =
      (Err (UndefinedError "save_mat is undefined, cant save"),
       mk_St b' (lg ++ [EvInnerProductMatrix a d; EvSvd h])) /\
    hankelMat b' = Some h /\
    LSingVecs b' = Some (fst (fst (svd h))) /\
    singVals b' = Some (snd (fst (svd h))) /\
    RSingVecs b' = Some (snd (svd h)).
Proof.
  intros Hrk Hsv Hd Ha h.
  destruct (compute_decomp_rank_zero b lg hp lp sp rp darg aarg Hrk Hd Ha)
    as (b' & Hrun & HH & HL & Hs & HR & _).
  rewrite Hsv in Hrun. exists b'. auto.
Qed.

End DecompMore.

(** ** Unset paths: what the failed call leaves, and a stalled world *)

Section DecompUnset.
Context {S : Type} {col : Collaborators S}.

(** The run of [compute_decomp] when a path list is unset: the arguments
    are stored, then the first unset list is reported, the direct one
    first. *)
Lemma compute_decomp_unset_run (b : BPOD S) (lg : list (event S))
    (hp lp sp rp : option Path) (darg aarg : option (list Path)) :
  or_else darg (directSnapPaths b) = None \/
  or_else aarg (adjointSnapPaths b) = None ->
  compute_decomp hp lp sp rp darg aarg (mk_St b lg) =
    Done (Err (UndefinedError
                 (match or_else darg (directSnapPaths b) with
                  | None => "directSnapPaths is not given"
                  | Some _ => "adjointSnapPaths is not given"
                  end)),
          mk_St (set_adjointSnapPaths (or_else aarg (adjointSnapPaths b))
                   (set_directSnapPaths (or_else darg (directSnapPaths b))
                      b))
            lg).
Proof.
  intros Hun. destruct b as [sv ld mp dp ap L sg R H].
  unfold compute_decomp.
  destruct darg as [d|]; destruct aarg as [a|]; simpl in Hun |- *;
    try (destruct Hun; discriminate).
  - destruct Hun as [Hun|Hun]; [discriminate|]. subst ap. reflexivity.
  - destruct Hun as [Hun|Hun]; [|discriminate]. subst dp. reflexivity.
  - destruct dp as [d|].
    + destruct Hun as [Hun|Hun]; [discriminate|]. subst ap. reflexivity.
    + reflexivity.
Qed.

(** X8. A [compute_decomp] that fails on an unset path list has already
    stored the path lists given as arguments: the instance keeps them after
    the exception.  The message names the direct list when it is unset,
    the adjoint list otherwise; nothing else of the instance changes and no
    call is made. *)
Theorem compute_decomp_failure_keeps_arguments (b : BPOD S)
    (lg : list (event S)) (hp lp sp rp : option Path)
    (darg aarg : option (list Path)) :
  or_else darg (directSnapPaths b) = None \/
  or_else aarg (adjointSnapPaths b) = None ->
  exists msg b',
    compute_decomp hp lp sp rp darg aarg (mk_St b lg) =
      Done (Err (UndefinedError msg), mk_St b' lg) /\
    msg = (match or_else darg (directSnapPaths b) with
           | None => "directSnapPaths is not given"
           | Some _ => "adjointSnapPaths is not given"
           end)%string /\
    directSnapPaths b' = or_else darg (directSnapPaths b) /\
    adjointSnapPaths b' = or_else aarg (adjointSnapPaths b) /\
    save_mat b' = save_mat b /\ load_mat b' = load_mat b /\
    mpi b' = mpi b /\ hankelMat b' = hankelMat b /\
    LSingVecs b' = LSingVecs b /\ singVals b' = singVals b /\
    RSingVecs b' = RSingVecs b.
Proof.
  intros Hun.
  rewrite (compute_decomp_unset_run b lg hp lp sp rp darg aarg Hun).
  eexists _, _. split; [reflexivity|]. simpl. repeat split; reflexivity.
Qed.

Lemma all_recv_stalls {X : Type} (v : option (ndarray S))
    (ps : list (Proc S X)) (x : X) :
  In (Done x) ps -> all_recv v ps = None.
Proof.
  induction ps as [|p ps IH]; intros Hin; simpl in *.
  - contradiction.
  - destruct Hin as [->|Hin]; [reflexivity|].
    destruct p as [y|w k]; [reflexivity|].
    rewrite (IH Hin). reflexivity.
Qed.

(** X14. The path lists are checked by each worker for itself.  In a
    distributed run where the coordinator has both lists and some other
    worker lacks one, that worker raises before the first broadcast while
    the coordinator enters it: the world never finishes. *)
Theorem compute_decomp_world_stalls (root w : St S) (others : list (St S))
    (hp lp sp rp : option Path) (darg aarg : option (list Path))
    (d a : list Path) :
  parallel (mpi (self root)) = true ->
  or_else darg (directSnapPaths (self root)) = Some d ->
  or_else aarg (adjointSnapPaths (self root)) = Some a ->
  In w others ->
  or_else darg (directSnapPaths (self w)) = None \/
  or_else aarg (adjointSnapPaths (self w)) = None ->
  run_world (compute_decomp hp lp sp rp darg aarg root)
    (map (compute_decomp hp lp sp rp darg aarg) others) = None.
Proof.
  intros Hpar Hd Ha Hin Hun. destruct root as [b lg]. simpl in *.
  destruct (compute_decomp_args b darg aarg)
    as (b0 & Hrun & Hd0 & Ha0 & _ & Hmpi & _).
  rewrite Hrun. rewrite Hd in Hd0. rewrite Ha in Ha0.
  rewrite (compute_decomp_run b0 lg hp lp sp rp Hd0 Ha0).
  rewrite <- Hmpi in Hpar. rewrite Hpar. simpl.
  destruct w as [bw lgw]. simpl in Hun.
  pose proof (compute_decomp_unset_run bw lgw hp lp sp rp darg aarg Hun)
    as Hw.
  erewrite all_recv_stalls; [reflexivity|].
  apply in_map_iff. eexists. split; [exact Hw|exact Hin].
Qed.

End DecompUnset.

(** ** Mode reconstruction: repeated calls and the shape of the singular
    values *)

Section ModesMore.
Context {S : Type} {ops : ScalarOps S}.

Lemma squeeze_idem (a : ndarray S) : squeeze (squeeze a) = squeeze a.
Proof.
  unfold squeeze. simpl. f_equal.
  induction (shape a) as [|n l IH]; simpl.
  - reflexivity.
  - destruct (negb (unit_dim n)) eqn:Hn; simpl.
    + rewrite Hn, IH. reflexivity.
    + exact IH.
Qed.

(** X9. The squeeze that [compute_adjoint_modes] stores is done once and
    for all: a second call, whatever its arguments, leaves the stored
    singular values as the first call left them and ends as the first did,
    normally or with the same exception. *)
Theorem compute_adjoint_modes_twice (b : BPOD S) (lg : list (event S))
    (ml ml' : list Z) (mp mp' : Path) (ix ix' : Z)
    (arg arg' : option (list Path)) (L sigma : ndarray S) :
  LSingVecs b = Some L -> singVals b = Some sigma ->
  exists r b1 lg1 b2 lg2,
    compute_adjoint_modes ml mp ix arg (mk_St b lg) =
      Done (r, mk_St b1 lg1) /\
    compute_adjoint_modes ml' mp' ix' arg' (mk_St b1 lg1) =
      Done (r, mk_St b2 lg2) /\
    singVals b1 = Some (squeeze sigma) /\
    singVals b2 = singVals b1.
Proof.
  intros HL Hs.
  destruct (@compute_modes_of_run S ops Adjoint b lg ml mp ix arg L sigma
              HL Hs) as (b1 & Hs1 & _ & HL1 & _ & _ & Hrun1).
  simpl in Hs1, HL1, Hrun1. rewrite HL in HL1.
  assert (Hsecond : forall lg1, exists b2,
            singVals b2 = Some (squeeze sigma) /\
            compute_adjoint_modes ml' mp' ix' arg' (mk_St b1 lg1) =
              match buildCoeffMat_of L (squeeze sigma) with
              | Ok C =>
                  Done (Ok tt,
                        mk_St b2
                          (lg1 ++ [EvComputeModes ml' mp'
                                     (or_else arg' (adjointSnapPaths b1)) C
                                     ix']))
              | Err e => Done (Err e, mk_St b2 lg1)
              end).
  { intros lg1.
    destruct (@compute_modes_of_run S ops Adjoint b1 lg1 ml' mp' ix' arg' L
                (squeeze sigma) HL1 Hs1)
      as (b2 & Hs2 & _ & _ & _ & _ & Hrun2).
    simpl in Hs2, Hrun2. rewrite squeeze_idem in Hs2, Hrun2.
    exists b2. auto. }
  destruct (buildCoeffMat_of L (squeeze sigma)) as [C|e].
  - destruct (Hsecond (lg ++ [EvComputeModes ml mp
                                (or_else arg (adjointSnapPaths b)) C ix]))
      as (b2 & Hs2 & Hrun2).
    exists (Ok tt), b1. eexists. exists b2. eexists.
    split; [exact Hrun1|]. split; [exact Hrun2|].
    split; [exact Hs1|]. rewrite Hs2, Hs1. reflexivity.
  - destruct (Hsecond lg) as (b2 & Hs2 & Hrun2).
    exists (Err e), b1, lg, b2, lg.
    split; [exact Hrun1|]. split; [exact Hrun2|].
    split; [exact Hs1|]. rewrite Hs2, Hs1. reflexivity.
Qed.

(** With the singular values stored as a row of [k <> 1] entries, numpy
    takes the one-entry diagonal of that row and the product with the
    [k]-column vectors is refused. *)
Lemma buildCoeffMat_of_row_sigma (V sigma : ndarray S) (m k : nat) :
  shape V = [m; k] -> shape sigma = [1; k] -> k <> 1 ->
  exists msg, buildCoeffMat_of V sigma = Err (ValueError msg).
Proof.
  intros HV Hs Hk. unfold buildCoeffMat_of, mat. rewrite HV. simpl.
  unfold diag. simpl. rewrite Hs. simpl.
  unfold matmul. rewrite HV. simpl.
  destruct (Nat.eqb_spec k 1) as [Hk1|_]; [contradiction|]. eauto.
Qed.

(** With 0-d singular values [N.diag] is refused, when [N.mat] has not
    already refused the vectors. *)
Lemma mat_refusal (V : ndarray S) (e : exn) :
  mat V = Err e -> exists msg, e = ValueError msg.
Proof.
  unfold mat. destruct (shape V) as [|n1 [|n2 [|n3 l]]]; try discriminate.
  destruct (matrix_shape (filter (fun x => 1 <? x) (n1 :: n2 :: n3 :: l)))
    as [new|e'] eqn:Hnew; simpl.
  - unfold set_shape.
    destruct (fold_right Nat.mul 1 new =? _); [discriminate|].
    intros Heq. inversion Heq. eauto.
  - unfold matrix_shape in Hnew.
    destruct (filter (fun x => 1 <? x) (n1 :: n2 :: n3 :: l))
      as [|m1 [|m2 [|m3 l']]]; try discriminate.
    inversion Hnew. intros Heq. inversion Heq. eauto.
Qed.

Lemma buildCoeffMat_of_scalar_sigma (V sigma : ndarray S) :
  shape sigma = [] ->
  exists msg, buildCoeffMat_of V sigma = Err (ValueError msg).
Proof.
  intros Hs. unfold buildCoeffMat_of.
  destruct (mat V) as [mV|e] eqn:HmV; simpl.
  - unfold diag. simpl. rewrite Hs. simpl. eauto.
  - destruct (mat_refusal V HmV) as (msg & ->). eauto.
Qed.

(** X10. The two reconstructions differ on singular values stored as a
    1-by-[k] row, [k <> 1]: [compute_direct_modes] has no squeeze, numpy refuses its coefficient
    expression with a [ValueError], and the builder is not called;
    [compute_adjoint_modes] squeezes first and makes its call to the
    builder. *)
Theorem modes_on_row_singVals (b : BPOD S) (lg : list (event S))
    (ml : list Z) (mp : Path) (ix : Z) (arg : option (list Path))
    (R L sigma : ndarray S) (m n k : nat) :
  RSingVecs b = Some R -> LSingVecs b = Some L -> singVals b = Some sigma ->
  shape R = [m; k] -> shape L = [n; k] -> shape sigma = [1; k] -> k <> 1 ->
  well_shaped sigma ->
  (exists msg b1,
     compute_direct_modes ml mp ix arg (mk_St b lg) =
       Done (Err (ValueError msg), mk_St b1 lg) /\
     singVals b1 = Some sigma) /\
  (exists C b2,
     compute_adjoint_modes ml mp ix arg (mk_St b lg) =
       Done (Ok tt,
             mk_St b2
               (lg ++ [EvComputeModes ml mp (or_else arg (adjointSnapPaths b))
                         C ix])) /\
     shape C = [n; k] /\
     singVals b2 = Some (squeeze sigma)).
Proof.
  intros HR HL Hs HsR HsL Hss Hk Hw. split.
  - destruct (@compute_modes_of_run S ops Direct b lg ml mp ix arg R sigma
                HR Hs) as (b1 & Hs1 & _ & _ & _ & _ & Hrun).
    simpl in Hs1, Hrun.
    destruct (buildCoeffMat_of_row_sigma R sigma HsR Hss Hk) as (msg & Hmsg).
    rewrite Hmsg in Hrun. exists msg, b1. auto.
  - destruct (@compute_modes_of_run S ops Adjoint b lg ml mp ix arg L sigma
                HL Hs) as (b2 & Hs2 & _ & _ & _ & _ & Hrun).
    simpl in Hs2, Hrun.
    assert (Hsq : shape (squeeze sigma) = [k]).
    { apply squeeze_vector; [exact Hk|]. right. left. exact Hss. }
    destruct (@buildCoeffMat_of_entries S ops L (squeeze sigma) n k HsL Hsq
                (well_shaped_squeeze Hw)) as (C & HC & HshC & _).
    rewrite HC in Hrun. exists C, b2. auto.
Qed.

(** X11. A lone singular value persisted with every axis of length one,
    such as a 1-by-1 matrix, is stored by [load_decomp] as a 0-d array, and
    no reconstruction can use it: on the coordinator, either one raises
    [ValueError] after the load, the builder not being called. *)
Theorem modes_after_loading_lone_value (side : Side) (b : BPOD S)
    (lg : list (event S)) (hp lp sp rp : option Path)
    (larg : option (MatLoader S)) (ld : MatLoader S) (ml : list Z)
    (mp : Path) (ix : Z) (arg : option (list Path)) :
  isRankZero (mpi b) = true ->
  or_else larg (load_mat b) = Some ld ->
  Forall (fun n => n = 1) (shape (ld sp)) ->
  exists msg b2,
    compute_modes_of side ml mp ix arg
      (snd (run_alone (load_decomp hp lp sp rp larg (mk_St b lg)))) =
      Done (Err (ValueError msg),
            mk_St b2 (lg ++ [EvLoadMat lp; EvLoadMat sp; EvLoadMat rp])).
Proof.
  intros Hrk Hld Hone.
  rewrite (load_decomp_rank_zero b lg hp lp sp rp larg Hrk Hld). simpl snd.
  set (b1 := if parallel (mpi b) then _ else _).
  assert (Hfields : singVals b1 = Some (squeeze (ld sp)) /\
                    exists V, singVecs_of side b1 = Some V).
  { unfold b1, loaded, received. simpl. rewrite Hrk.
    destruct (parallel (mpi b)); destruct side; simpl; eauto. }
  destruct Hfields as (Hs1 & V & HV).
  destruct (@compute_modes_of_run S ops side b1
              (lg ++ [EvLoadMat lp; EvLoadMat sp; EvLoadMat rp])
              ml mp ix arg V (squeeze (ld sp)) HV Hs1)
    as (b2 & _ & _ & _ & _ & _ & Hrun).
  assert (Hsh : shape (sigma_used side (squeeze (ld sp))) = []).
  { destruct side; simpl sigma_used; [|rewrite squeeze_idem];
      apply squeeze_all_units; exact Hone. }
  destruct (buildCoeffMat_of_scalar_sigma V _ Hsh) as (msg & Hmsg).
  rewrite Hmsg in Hrun. exists msg, b2. exact Hrun.
Qed.

(** X6. Singular values persisted as a row, a column or a flat sequence
    of [k <> 1] values serve both reconstructions once loaded: after a
    serial load on the coordinator, the reconstruction of either side makes
    its one call to the builder with the coefficient matrix of the loaded
    vectors of that side and the squeezed singular values. *)
Theorem modes_after_loading (side : Side) (b : BPOD S)
    (lg : list (event S)) (hp lp sp rp : option Path)
    (larg : option (MatLoader S)) (ld : MatLoader S) (ml : list Z)
    (mp : Path) (ix : Z) (arg : option (list Path)) (m k : nat) :
  isRankZero (mpi b) = true -> parallel (mpi b) = false ->
  or_else larg (load_mat b) = Some ld ->
  let V := ld (match side with Direct => rp | Adjoint => lp end) in
  shape V = [m; k] -> k <> 1 ->
  shape (ld sp) = [k] \/ shape (ld sp) = [1; k] \/ shape (ld sp) = [k; 1] ->
  well_shaped (ld sp) ->
  exists C b2,
    compute_modes_of side ml mp ix arg
      (snd (run_alone (load_decomp hp lp sp rp larg (mk_St b lg)))) =
      Done (Ok tt,
            mk_St b2
              (lg ++ [EvLoadMat lp; EvLoadMat sp; EvLoadMat rp;
                      EvComputeModes ml mp (or_else arg (snapPaths_of side b))
                        C ix])) /\
    shape C = [m; k] /\
    forall i j, i < m -> j < k ->
      get2 C i j = coeff_entry k V (squeeze (ld sp)) i j.
Proof.
  intros Hrk Hpar Hld V HsV Hk Hss Hw.
  rewrite (load_decomp_rank_zero b lg hp lp sp rp larg Hrk Hld).
  rewrite Hpar. simpl snd.
  set (b1 := loaded ld lp sp rp (set_load_mat (Some ld) b)).
  assert (Hfields : singVals b1 = Some (squeeze (ld sp)) /\
                    singVecs_of side b1 = Some V /\
                    snapPaths_of side b1 = snapPaths_of side b).
  { unfold b1, loaded, V. simpl. rewrite Hrk.
    destruct side; simpl; auto. }
  destruct Hfields as (Hs1 & HV & Hp).
  destruct (@compute_modes_of_run S ops side b1
              (lg ++ [EvLoadMat lp; EvLoadMat sp; EvLoadMat rp])
              ml mp ix arg V (squeeze (ld sp)) HV Hs1)
    as (b2 & _ & _ & _ & _ & _ & Hrun).
  assert (Hsq : sigma_used side (squeeze (ld sp)) = squeeze (ld sp)).
  { destruct side; simpl; [reflexivity|apply squeeze_idem]. }
  rewrite Hsq, Hp in Hrun.
  destruct (@buildCoeffMat_of_entries S ops V (squeeze (ld sp)) m k HsV
              (squeeze_vector (ld sp) Hk Hss) (well_shaped_squeeze Hw))
    as (C & HC & HshC & Hent).
  rewrite HC in Hrun. rewrite <- app_assoc in Hrun. simpl in Hrun.
  exists C, b2. auto.
Qed.

End ModesMore.

(** ** The columns of the coefficient matrix *)

Section ScaledColumns.
Context {S : Type} {ops : ScalarOps S}.
Hypothesis sadd_zero_l : forall x : S, sadd szero x = x.
Hypothesis sadd_zero_r : forall x : S, sadd x szero = x.
Hypothesis smul_zero_r : forall x : S, smul x szero = szero.

(** X12. Over scalars for which zero is neutral for the sum and absorbing
    for the product, the coefficient expression
    [N.mat(V) * N.mat(N.diag(sigma ** -0.5))] scales the columns of [V]:
    entry [(i, j)] of the result is [V[i,j] * sigma[j] ** -0.5]. *)
Theorem buildCoeffMat_of_scales_columns (V sigma : ndarray S) (m k : nat) :
  shape V = [m; k] -> shape sigma = [k] -> well_shaped sigma ->
  exists C,
    buildCoeffMat_of V sigma = Ok C /\ shape C = [m; k] /\
    forall i j, i < m -> j < k ->
      get2 C i j = smul (get2 V i j) (pow_neg_half (get1 sigma j)).
Proof.
  intros HV Hs Hw.
  destruct (@buildCoeffMat_of_entries S ops V sigma m k HV Hs Hw)
    as (C & HC & HshC & Hent).
  exists C. split; [exact HC|]. split; [exact HshC|].
  intros i j Hi Hj. rewrite (Hent i j Hi Hj).
  apply (coeff_entry_scales sadd_zero_l sadd_zero_r smul_zero_r). exact Hj.
Qed.

End ScaledColumns.

(** ** From the decomposition to the modes *)

Section DecompThenModes.
Context {S : Type} {ops : ScalarOps S} {col : Collaborators S}.

(** X15. A reconstruction that follows [compute_decomp] on the coordinator
    finds the engine populated, whether or not the closing save succeeded:
    when the factorisation returned vectors with [k] columns and a flat
    sequence of [k] singular values, with [k <> 1] on the adjoint side (where
    the squeeze would turn a single value into a 0-d array), it makes its one
    call to the builder with the path list that [compute_decomp] stored for
    its side and the coefficient matrix of the factors. *)
Theorem modes_after_compute_decomp (side : Side) (b : BPOD S)
    (lg : list (event S)) (hp lp sp rp : option Path)
    (darg aarg : option (list Path)) (d a : list Path) (ml : list Z)
    (mp : Path) (ix : Z) (m k : nat) :
  isRankZero (mpi b) = true ->
  or_else darg (directSnapPaths b) = Some d ->
  or_else aarg (adjointSnapPaths b) = Some a ->
  let h := compute_inner_product_matrix a d in
  let V := match side with
           | Direct => snd (svd h)
           | Adjoint => fst (fst (svd h))
           end in
  shape V = [m; k] -> shape (snd (fst (svd h))) = [k] ->
  well_shaped (snd (fst (svd h))) -> (side = Adjoint -> k <> 1) ->
  exists C b2 lg1,
    compute_modes_of side ml mp ix None
      (snd (run_alone (compute_decomp hp lp sp rp darg aarg (mk_St b lg)))) =
      Done (Ok tt,
            mk_St b2
              (lg1 ++ [EvComputeModes ml mp
                         (Some (match side with
                                | Direct => d
                                | Adjoint => a
                                end)) C ix])) /\
    shape C = [m; k] /\
    forall i j, i < m -> j < k ->
      get2 C i j =
        coeff_entry k V (sigma_used side (snd (fst (svd h)))) i j.
Proof.
  intros Hrk Hd Ha h V HsV Hflat Hw Hk.
  set (sigma := sigma_used side (snd (fst (svd h)))).
  assert (Hss : shape sigma = [k]).
  { unfold sigma. destruct side; simpl sigma_used.
    - exact Hflat.
    - apply squeeze_vector; [exact (Hk eq_refl)|]. left. exact Hflat. }
  destruct (compute_decomp_rank_zero b lg hp lp sp rp darg aarg Hrk Hd Ha)
    as (b1 & Hrun & _ & HL & Hs & HR & Hd1 & Ha1).
  fold h in Hrun, HL, Hs, HR.
  assert (HV : singVecs_of side b1 = Some V).
  { destruct side; simpl; assumption. }
  assert (Hp : snapPaths_of side b1 =
               Some (match side with Direct => d | Adjoint => a end)).
  { destruct side; simpl; assumption. }
  destruct (@buildCoeffMat_of_entries S ops V sigma m k HsV Hss
              (well_shaped_sigma_used side Hw)) as (C & HC & HshC & Hent).
  assert (Hmodes : forall lg1, exists b2,
            compute_modes_of side ml mp ix None (mk_St b1 lg1) =
              Done (Ok tt,
                    mk_St b2
                      (lg1 ++ [EvComputeModes ml mp
                                 (Some (match side with
                                        | Direct => d
                                        | Adjoint => a
                                        end)) C ix]))).
  { intros lg1.
    destruct (@compute_modes_of_run S ops side b1 lg1 ml mp ix None V
                (snd (fst (svd h))) HV Hs)
      as (b2 & _ & _ & _ & _ & _ & Hrun2).
    fold sigma in Hrun2. rewrite HC in Hrun2. simpl in Hrun2.
    rewrite Hp in Hrun2. exists b2. exact Hrun2. }
  rewrite Hrun. destruct (save_mat b) as [sv|]; simpl snd.
  - destruct (Hmodes (lg ++ [EvInnerProductMatrix a d; EvSvd h] ++
                      writes_of sv b1 hp lp sp rp)) as (b2 & Hb2).
    exists C, b2. eexists. split; [exact Hb2|]. auto.
  - destruct (Hmodes (lg ++ [EvInnerProductMatrix a d; EvSvd h]))
      as (b2 & Hb2).
    exists C, b2. eexists. split; [exact Hb2|]. auto.
Qed.

End DecompThenModes.

(** ** Worked examples of the further properties *)

Section WorkedMore.
Import Examples.

Lemma load_decomp_no_loader_witness :
  load_mat (self (start (bare 0 true))) = None /\
  Forall (fun w => load_mat (self w) = None)
    [start (bare 1 true); start (bare 2 true)] /\
  run_world
    (@load_decomp Sym None (Some "L.txt"%string) (Some "S.txt"%string)
       (Some "R.txt"%string) None (start (bare 0 true)))
    (map
       (@load_decomp Sym None (Some "L.txt"%string) (Some "S.txt"%string)
          (Some "R.txt"%string) None)
       [start (bare 1 true); start (bare 2 true)]) =
    Some ((Err (NameError "UndefinedError"), start (bare 0 true)),
          map (fun w => (Err (NameError "UndefinedError"), w))
            [start (bare 1 true); start (bare 2 true)]).
Proof.
  assert (Hothers : Forall (fun w : St Sym => load_mat (self w) = None)
                      [start (bare 1 true); start (bare 2 true)]).
  { repeat constructor. }
  split; [reflexivity|]. split; [exact Hothers|].
  exact (@load_decomp_no_loader Sym (start (bare 0 true)) _ None
           (Some "L.txt"%string) (Some "S.txt"%string) (Some "R.txt"%string)
           eq_refl Hothers).
Defined.

Lemma load_decomp_keeps_loader_witness :
  isRankZero (mpi (bare 0 false)) = true /\
  parallel (mpi (bare 0 false)) = false /\
  exists b2,
    run_alone
      (@load_decomp Sym None (Some "L.txt"%string) (Some "S1.txt"%string)
         (Some "R.txt"%string) None
         (snd (run_alone
                 (@load_decomp Sym None (Some "L.txt"%string)
                    (Some "S.txt"%string) (Some "R.txt"%string)
                    (Some loader) (mk_St (bare 0 false) []))))) =
      (Ok tt,
       mk_St b2
         ([] ++ [EvLoadMat (Some "L.txt"%string);
                 EvLoadMat (Some "S.txt"%string);
                 EvLoadMat (Some "R.txt"%string);
                 EvLoadMat (Some "L.txt"%string);
                 EvLoadMat (Some "S1.txt"%string);
                 EvLoadMat (Some "R.txt"%string)])) /\
    load_mat b2 = Some loader /\
    LSingVecs b2 = Some (loader (Some "L.txt"%string)) /\
    singVals b2 = Some (squeeze (loader (Some "S1.txt"%string))) /\
    RSingVecs b2 = Some (loader (Some "R.txt"%string)).
Proof.
  split; [reflexivity|]. split; [reflexivity|].
  exact (@load_decomp_keeps_loader Sym (bare 0 false) []
           None (Some "L.txt"%string) (Some "S.txt"%string)
           (Some "R.txt"%string)
           None (Some "L.txt"%string) (Some "S1.txt"%string)
           (Some "R.txt"%string) loader eq_refl eq_refl).
Defined.

Lemma save_after_load_witness :
  isRankZero (mpi (unset 0 false)) = true /\
  parallel (mpi (unset 0 false)) = false /\
  or_else None (load_mat (unset 0 false)) = Some loader /\
  save_mat (unset 0 false) = Some save_mat_text /\
  exists b1,
    @save_decomp Sym (Some "H2.txt"%string) (Some "L2.txt"%string)
      (Some "S2.txt"%string) (Some "R2.txt"%string)
      (snd (run_alone
              (@load_decomp Sym (Some "H.txt"%string) (Some "L.txt"%string)
                 (Some "S.txt"%string) (Some "R.txt"%string) None
                 (mk_St (unset 0 false) [])))) =
      Done (Ok tt,
            mk_St b1
              ([] ++ [EvLoadMat (Some "L.txt"%string);
                      EvLoadMat (Some "S.txt"%string);
                      EvLoadMat (Some "R.txt"%string)] ++
               write_of save_mat_text (hankelMat (unset 0 false))
                 (Some "H2.txt"%string) ++
               write_of save_mat_text
                 (Some (loader (Some "L.txt"%string)))
                 (Some "L2.txt"%string) ++
               write_of save_mat_text
                 (Some (loader (Some "R.txt"%string)))
                 (Some "R2.txt"%string) ++
               write_of save_mat_text
                 (Some (squeeze (loader (Some "S.txt"%string))))
                 (Some "S2.txt"%string))).
Proof.
  split; [reflexivity|]. split; [reflexivity|]. split; [reflexivity|].
  split; [reflexivity|].
  exact (@save_after_load Sym (unset 0 false) []
           (Some "H.txt"%string) (Some "L.txt"%string) (Some "S.txt"%string)
           (Some "R.txt"%string)
           (Some "H2.txt"%string) (Some "L2.txt"%string)
           (Some "S2.txt"%string) (Some "R2.txt"%string)
           None loader save_mat_text eq_refl eq_refl eq_refl eq_refl).
Defined.

Lemma compute_decomp_writes_what_it_holds_witness :
  isRankZero (mpi (ready 0 true)) = true /\
  save_mat (ready 0 true) = Some save_mat_text /\
  or_else None (directSnapPaths (ready 0 true)) = Some direct_paths /\
  or_else None (adjointSnapPaths (ready 0 true)) = Some adjoint_paths /\
  always
    (fun out =>
       fst out = Ok tt /\
       log (snd out) =
         [] ++ [EvInnerProductMatrix adjoint_paths direct_paths;
                EvSvd (@compute_inner_product_matrix Sym flat_col
                         adjoint_paths direct_paths)] ++
         writes_of save_mat_text (self (snd out)) default_hankelMatPath
           default_LSingVecsPath default_singValsPath default_RSingVecsPath)
    (@compute_decomp Sym flat_col default_hankelMatPath
       default_LSingVecsPath default_singValsPath default_RSingVecsPath
       None None (mk_St (ready 0 true) [])).
Proof.
  split; [reflexivity|]. split; [reflexivity|]. split; [reflexivity|].
  split; [reflexivity|].
  exact (@compute_decomp_writes_what_it_holds Sym flat_col (ready 0 true) []
           default_hankelMatPath default_LSingVecsPath default_singValsPath
           default_RSingVecsPath None None direct_paths adjoint_paths
           save_mat_text eq_refl eq_refl eq_refl eq_refl).
Defined.

Lemma compute_decomp_no_saver_witness :
  isRankZero
    (mpi (fresh 0 false None (Some direct_paths) (Some adjoint_paths))) =
    true /\
  save_mat (fresh 0 false None (Some direct_paths) (Some adjoint_paths)) =
    None /\
  or_else None
    (directSnapPaths
       (fresh 0 false None (Some direct_paths) (Some adjoint_paths))) =
    Some direct_paths /\
  or_else None
    (adjointSnapPaths
       (fresh 0 false None (Some direct_paths) (Some adjoint_paths))) =
    Some adjoint_paths /\
  let h := @compute_inner_product_matrix Sym flat_col adjoint_paths
             direct_paths in
  exists b',
    run_alone
      (@compute_decomp Sym flat_col default_hankelMatPath
         default_LSingVecsPath default_singValsPath default_RSingVecsPath
         None None
         (mk_St (fresh 0 false None (Some direct_paths) (Some adjoint_paths))
            [])) =
      (Err (UndefinedError "save_mat is undefined, cant save"),
       mk_St b'
         ([] ++ [EvInnerProductMatrix adjoint_paths direct_paths; EvSvd h]))
    /\
    hankelMat b' = Some h /\
    LSingVecs b' = Some (fst (fst (@svd Sym flat_col h))) /\
    singVals b' = Some (snd (fst (@svd Sym flat_col h))) /\
    RSingVecs b' = Some (snd (@svd Sym flat_col h)).
Proof.
  split; [reflexivity|]. split; [reflexivity|]. split; [reflexivity|].
  split; [reflexivity|].
  exact (@compute_decomp_no_saver Sym flat_col
           (fresh 0 false None (Some direct_paths) (Some adjoint_paths)) []
           default_hankelMatPath default_LSingVecsPath default_singValsPath
           default_RSingVecsPath None None direct_paths adjoint_paths
           eq_refl eq_refl eq_refl eq_refl).
Defined.

Lemma compute_decomp_world_witness :
  isRankZero (mpi (self (start (ready 0 true)))) = true /\
  parallel (mpi (self (start (ready 0 true)))) = true /\
  or_else None (directSnapPaths (self (start (ready 0 true)))) =
    Some direct_paths /\
  or_else None (adjointSnapPaths (self (start (ready 0 true)))) =
    Some adjoint_paths /\
  Forall (fun w => parallel (mpi (self w)) = true /\
                   exists d' a',
                     or_else None (directSnapPaths (self w)) = Some d' /\
                     or_else None (adjointSnapPaths (self w)) = Some a')
    [start (ready 1 true); start (ready 2 true)] /\
  let h := @compute_inner_product_matrix Sym flat_col adjoint_paths
             direct_paths in
  exists out outs,
    run_world
      (@compute_decomp Sym flat_col None None None None None None
         (start (ready 0 true)))
      (map (@compute_decomp Sym flat_col None None None None None None)
         [start (ready 1 true); start (ready 2 true)]) =
      Some (out, outs) /\
    Forall (fun o =>
              LSingVecs (self (snd o)) =
                Some (fst (fst (@svd Sym flat_col h))) /\
              singVals (self (snd o)) =
                Some (snd (fst (@svd Sym flat_col h))) /\
              RSingVecs (self (snd o)) = Some (snd (@svd Sym flat_col h)))
      (out :: outs).
Proof.
  assert (Hothers :
    Forall (fun w : St Sym => parallel (mpi (self w)) = true /\
                     exists d' a',
                       or_else None (directSnapPaths (self w)) = Some d' /\
                       or_else None (adjointSnapPaths (self w)) = Some a')
      [start (ready 1 true); start (ready 2 true)]).
  { repeat constructor; exists direct_paths, adjoint_paths;
      split; reflexivity. }
  split; [reflexivity|]. split; [reflexivity|]. split; [reflexivity|].
  split; [reflexivity|]. split; [exact Hothers|].
  exact (@compute_decomp_world Sym flat_col (start (ready 0 true)) _
           None None None None None None direct_paths adjoint_paths
           eq_refl eq_refl eq_refl eq_refl Hothers).
Defined.

Lemma compute_decomp_failure_keeps_arguments_witness :
  (or_else (Some direct_paths) (directSnapPaths (unset 0 false)) = None \/
   or_else None (adjointSnapPaths (unset 0 false)) = None) /\
  exists msg b',
    @compute_decomp Sym flat_col None None None None (Some direct_paths)
      None (mk_St (unset 0 false) []) =
      Done (Err (UndefinedError msg), mk_St b' []) /\
    msg = "adjointSnapPaths is not given"%string /\
    directSnapPaths b' = Some direct_paths /\
    adjointSnapPaths b' = None /\
    save_mat b' = save_mat (unset 0 false) /\
    load_mat b' = load_mat (unset 0 false) /\
    mpi b' = mpi (unset 0 false) /\
    hankelMat b' = hankelMat (unset 0 false) /\
    LSingVecs b' = LSingVecs (unset 0 false) /\
    singVals b' = singVals (unset 0 false) /\
    RSingVecs b' = RSingVecs (unset 0 false).
Proof.
  split; [right; reflexivity|].
  exact (@compute_decomp_failure_keeps_arguments Sym flat_col
           (unset 0 false) [] None None None None (Some direct_paths) None
           (or_intror eq_refl)).
Defined.

Lemma compute_decomp_world_stalls_witness :
  parallel (mpi (self (start (ready 0 true)))) = true /\
  or_else None (directSnapPaths (self (start (ready 0 true)))) =
    Some direct_paths /\
  or_else None (adjointSnapPaths (self (start (ready 0 true)))) =
    Some adjoint_paths /\
  In (start (unset 2 true)) [start (ready 1 true); start (unset 2 true)] /\
  (or_else None (directSnapPaths (self (start (unset 2 true)))) = None \/
   or_else None (adjointSnapPaths (self (start (unset 2 true)))) = None) /\
  run_world
    (@compute_decomp Sym flat_col None None None None None None
       (start (ready 0 true)))
    (map (@compute_decomp Sym flat_col None None None None None None)
       [start (ready 1 true); start (unset 2 true)]) = None.
Proof.
  split; [reflexivity|]. split; [reflexivity|]. split; [reflexivity|].
  split; [right; left; reflexivity|]. split; [left; reflexivity|].
  exact (@compute_decomp_world_stalls Sym flat_col (start (ready 0 true))
           (start (unset 2 true))
           [start (ready 1 true); start (unset 2 true)]
           None None None None None None
           direct_paths adjoint_paths eq_refl eq_refl eq_refl
           (or_intror (or_introl eq_refl)) (or_introl eq_refl)).
Defined.

Lemma compute_adjoint_modes_twice_witness :
  LSingVecs decomposed = Some L_file /\
  singVals decomposed = Some S_file /\
  exists r b1 lg1 b2 lg2,
    @compute_adjoint_modes Sym Sym_ops [1]%Z "mode_%d.txt"%string 1%Z None
      (mk_St decomposed []) = Done (r, mk_St b1 lg1) /\
    @compute_adjoint_modes Sym Sym_ops [2]%Z "again_%d.txt"%string 0%Z
      (Some adjoint_paths) (mk_St b1 lg1) = Done (r, mk_St b2 lg2) /\
    singVals b1 = Some (squeeze S_file) /\
    singVals b2 = singVals b1.
Proof.
  split; [reflexivity|]. split; [reflexivity|].
  exact (@compute_adjoint_modes_twice Sym Sym_ops decomposed [] [1]%Z [2]%Z
           "mode_%d.txt"%string "again_%d.txt"%string 1%Z 0%Z None
           (Some adjoint_paths) L_file S_file eq_refl eq_refl).
Defined.

Lemma modes_on_row_singVals_witness :
  RSingVecs decomposed = Some R_file /\
  LSingVecs decomposed = Some L_file /\
  singVals decomposed = Some S_file /\
  shape R_file = [2; 2] /\ shape L_file = [3; 2] /\
  shape S_file = [1; 2] /\ 2 <> 1 /\ well_shaped S_file /\
  (exists msg b1,
     @compute_direct_modes Sym Sym_ops [1]%Z "mode_%d.txt"%string 1%Z None
       (mk_St decomposed []) =
       Done (Err (ValueError msg), mk_St b1 []) /\
     singVals b1 = Some S_file) /\
  (exists C b2,
     @compute_adjoint_modes Sym Sym_ops [1]%Z "mode_%d.txt"%string 1%Z None
       (mk_St decomposed []) =
       Done (Ok tt,
             mk_St b2
               ([] ++ [EvComputeModes [1]%Z "mode_%d.txt"%string
                         (or_else None (adjointSnapPaths decomposed)) C
                         1%Z])) /\
     shape C = [3; 2] /\
     singVals b2 = Some (squeeze S_file)).
Proof.
  assert (Hk : 2 <> 1) by discriminate.
  split; [reflexivity|]. split; [reflexivity|]. split; [reflexivity|].
  split; [reflexivity|]. split; [reflexivity|]. split; [reflexivity|].
  split; [exact Hk|]. split; [reflexivity|].
  exact (@modes_on_row_singVals Sym Sym_ops decomposed [] [1]%Z
           "mode_%d.txt"%string 1%Z None R_file L_file S_file 2 3 2
           eq_refl eq_refl eq_refl eq_refl eq_refl eq_refl Hk eq_refl).
Defined.

Lemma modes_after_loading_lone_value_witness :
  isRankZero (mpi (unset 0 false)) = true /\
  or_else None (load_mat (unset 0 false)) = Some loader /\
  Forall (fun n => n = 1) (shape (loader (Some "S1.txt"%string))) /\
  exists msg b2,
    @compute_modes_of Sym Sym_ops Direct [1]%Z "mode_%d.txt"%string 1%Z
      (Some direct_paths)
      (snd (run_alone
              (@load_decomp Sym None (Some "L.txt"%string)
                 (Some "S1.txt"%string) (Some "R.txt"%string) None
                 (mk_St (unset 0 false) [])))) =
      Done (Err (ValueError msg),
            mk_St b2
              ([] ++ [EvLoadMat (Some "L.txt"%string);
                      EvLoadMat (Some "S1.txt"%string);
                      EvLoadMat (Some "R.txt"%string)])).
Proof.
  assert (Hone : Forall (fun n => n = 1)
                   (shape (loader (Some "S1.txt"%string)))).
  { repeat constructor. }
  split; [reflexivity|]. split; [reflexivity|]. split; [exact Hone|].
  exact (@modes_after_loading_lone_value Sym Sym_ops Direct (unset 0 false)
           [] None (Some "L.txt"%string) (Some "S1.txt"%string)
           (Some "R.txt"%string) None loader [1]%Z "mode_%d.txt"%string 1%Z
           (Some direct_paths) eq_refl eq_refl Hone).
Defined.

Lemma simplifying_sadd_zero_l (x : Sym) :
  @sadd Sym simplifying_ops (@szero Sym simplifying_ops) x = x.
Proof. reflexivity. Qed.

Lemma simplifying_sadd_zero_r (x : Sym) :
  @sadd Sym simplifying_ops x (@szero Sym simplifying_ops) = x.
Proof. destruct x as [[| |]| | |]; reflexivity. Qed.

Lemma simplifying_smul_zero_r (x : Sym) :
  @smul Sym simplifying_ops x (@szero Sym simplifying_ops) =
  @szero Sym simplifying_ops.
Proof. reflexivity. Qed.

Lemma buildCoeffMat_of_scales_columns_witness :
  (forall x : Sym,
     @sadd Sym simplifying_ops (@szero Sym simplifying_ops) x = x) /\
  (forall x : Sym,
     @sadd Sym simplifying_ops x (@szero Sym simplifying_ops) = x) /\
  (forall x : Sym,
     @smul Sym simplifying_ops x (@szero Sym simplifying_ops) =
     @szero Sym simplifying_ops) /\
  shape R_file = [2; 2] /\ shape (squeeze S_file) = [2] /\
  well_shaped (squeeze S_file) /\
  exists C,
    @buildCoeffMat_of Sym simplifying_ops R_file (squeeze S_file) = Ok C /\
    shape C = [2; 2] /\
    forall i j, i < 2 -> j < 2 ->
      @get2 Sym simplifying_ops C i j =
        @smul Sym simplifying_ops (@get2 Sym simplifying_ops R_file i j)
          (@pow_neg_half Sym simplifying_ops
             (@get1 Sym simplifying_ops (squeeze S_file) j)).
Proof.
  split; [exact simplifying_sadd_zero_l|].
  split; [exact simplifying_sadd_zero_r|].
  split; [exact simplifying_smul_zero_r|].
  split; [reflexivity|]. split; [reflexivity|]. split; [reflexivity|].
  exact (@buildCoeffMat_of_scales_columns Sym simplifying_ops
           simplifying_sadd_zero_l simplifying_sadd_zero_r
           simplifying_smul_zero_r R_file (squeeze S_file) 2 2
           eq_refl eq_refl eq_refl).
Defined.

(** The coefficient matrix of the right vectors [[7, 8], [9, 10]] and the
    singular values [4, 9] over the simplifying scalars. *)
Example scaled_columns_of_files :
  @buildCoeffMat_of Sym simplifying_ops R_file (squeeze S_file) =
  Ok (mk_ndarray [2; 2]
        [Mul (Lit 7) (PowNegHalf (Lit 4)); Mul (Lit 8) (PowNegHalf (Lit 9));
         Mul (Lit 9) (PowNegHalf (Lit 4)); Mul (Lit 10) (PowNegHalf (Lit 9))]).
Proof. vm_compute. reflexivity. Qed.

Lemma modes_after_compute_decomp_witness :
  isRankZero (mpi (ready 0 false)) = true /\
  or_else None (directSnapPaths (ready 0 false)) = Some direct_paths /\
  or_else None (adjointSnapPaths (ready 0 false)) = Some adjoint_paths /\
  let h := @compute_inner_product_matrix Sym flat_col adjoint_paths
             direct_paths in
  let V := fst (fst (@svd Sym flat_col h)) in
  shape V = [3; 2] /\ shape (snd (fst (@svd Sym flat_col h))) = [2] /\
  well_shaped (snd (fst (@svd Sym flat_col h))) /\
  (Adjoint = Adjoint -> 2 <> 1) /\
  exists C b2 lg1,
    @compute_modes_of Sym Sym_ops Adjoint [1; 2]%Z "mode_%d.txt"%string 1%Z
      None
      (snd (run_alone
              (@compute_decomp Sym flat_col default_hankelMatPath
                 default_LSingVecsPath default_singValsPath
                 default_RSingVecsPath None None
                 (mk_St (ready 0 false) [])))) =
      Done (Ok tt,
            mk_St b2
              (lg1 ++ [EvComputeModes [1; 2]%Z "mode_%d.txt"%string
                         (Some adjoint_paths) C 1%Z])) /\
    shape C = [3; 2] /\
    forall i j, i < 3 -> j < 2 ->
      get2 C i j =
        coeff_entry 2 V
          (sigma_used Adjoint (snd (fst (@svd Sym flat_col h)))) i j.
Proof.
  assert (Hk : Adjoint = Adjoint -> 2 <> 1) by (intros _; discriminate).
  split; [reflexivity|]. split; [reflexivity|]. split; [reflexivity|].
  split; [reflexivity|]. split; [reflexivity|]. split; [reflexivity|].
  split; [exact Hk|].
  exact (@modes_after_compute_decomp Sym Sym_ops flat_col Adjoint
           (ready 0 false) [] default_hankelMatPath default_LSingVecsPath
           default_singValsPath default_RSingVecsPath None None
           direct_paths adjoint_paths [1; 2]%Z "mode_%d.txt"%string 1%Z 3 2
           eq_refl eq_refl eq_refl eq_refl eq_refl eq_refl Hk).
Defined.

Lemma modes_after_loading_witness :
  isRankZero (mpi (unset 0 false)) = true /\
  parallel (mpi (unset 0 false)) = false /\
  or_else None (load_mat (unset 0 false)) = Some loader /\
  shape (loader (Some "R.txt"%string)) = [2; 2] /\ 2 <> 1 /\
  (shape (loader (Some "S.txt"%string)) = [2] \/
   shape (loader (Some "S.txt"%string)) = [1; 2] \/
   shape (loader (Some "S.txt"%string)) = [2; 1]) /\
  well_shaped (loader (Some "S.txt"%string)) /\
  exists C b2,
    @compute_modes_of Sym Sym_ops Direct [1; 2]%Z "mode_%d.txt"%string 1%Z
      (Some direct_paths)
      (snd (run_alone
              (@load_decomp Sym None (Some "L.txt"%string)
                 (Some "S.txt"%string) (Some "R.txt"%string) None
                 (mk_St (unset 0 false) [])))) =
      Done (Ok tt,
            mk_St b2
              ([] ++ [EvLoadMat (Some "L.txt"%string);
                      EvLoadMat (Some "S.txt"%string);
                      EvLoadMat (Some "R.txt"%string);
                      EvComputeModes [1; 2]%Z "mode_%d.txt"%string
                        (or_else (Some direct_paths)
                           (snapPaths_of Direct (unset 0 false)))
                        C 1%Z])) /\
    shape C = [2; 2] /\
    forall i j, i < 2 -> j < 2 ->
      get2 C i j =
        coeff_entry 2 (loader (Some "R.txt"%string))
          (squeeze (loader (Some "S.txt"%string))) i j.
Proof.
  assert (Hk : 2 <> 1) by discriminate.
  split; [reflexivity|]. split; [reflexivity|]. split; [reflexivity|].
  split; [reflexivity|]. split; [exact Hk|].
  split; [right; left; reflexivity|]. split; [reflexivity|].
  exact (@modes_after_loading Sym Sym_ops Direct (unset 0 false) []
           None (Some "L.txt"%string) (Some "S.txt"%string)
           (Some "R.txt"%string) None loader [1; 2]%Z "mode_%d.txt"%string
           1%Z (Some direct_paths) 2 2 eq_refl eq_refl eq_refl eq_refl Hk
           (or_intror (or_introl eq_refl)) eq_refl).
Defined.

End WorkedMore.
